(** * cinoas: active-space selection from CIS natural-orbital occupations

    A shallow embedding of [find_active_space] (src/cinoas/cinoas.py) and the
    properties of its selection loops.

    Numbers.  The occupations are [numpy.float64] values read from a psi4
    [Vector]; the counters and the initial accumulators are Python [int]s.
    A [float64] is modelled by an exact rational ([Qc]): rounding and signed
    zeros are not modelled.  What is modelled is the difference between the two
    kinds of number that decides how a division by zero ends: [int / int]
    raises [ZeroDivisionError], a division in which a [float64] takes part
    yields [nan] or [inf]. *)

From stdpp Require Import base list numbers sorting.
From Stdlib Require Import QArith Qcanon.

Close Scope Qc_scope.
Close Scope Q_scope.

(** ** Python numbers and exceptions *)

Inductive number :=
  | PyInt (z : Z)
  | NpFloat (q : Qc).

Definition value (n : number) : Qc :=
  match n with
  | PyInt z => Qc_of_Z z
  | NpFloat q => q
  end.

Definition py_add (a b : number) : number :=
  match a, b with
  | PyInt x, PyInt y => PyInt (x + y)
  | _, _ => NpFloat (value a + value b)%Qc
  end.

Definition py_sub (a b : number) : number :=
  match a, b with
  | PyInt x, PyInt y => PyInt (x - y)
  | _, _ => NpFloat (value a - value b)%Qc
  end.

(** The result of a true division: a finite value, or one of the values
    numpy gives to a division by zero. *)
Inductive quotient :=
  | Fin (q : Qc)
  | PInf
  | NInf
  | NaN.

Definition np_divide (a b : Qc) : quotient :=
  if decide (b = 0%Qc) then
    if decide (a = 0%Qc) then NaN
    else if decide (0 < a)%Qc then PInf else NInf
  else Fin (a / b)%Qc.

Inductive exn :=
  | ZeroDivisionError
  | IndexError.

(** Computations that may raise. *)
Definition py (A : Type) : Type := (exn + A)%type.

Global Instance py_ret : MRet py := λ A x, inr x.
Global Instance py_bind : MBind py := λ A B f m,
  match m with
  | inl e => inl e
  | inr x => f x
  end.

Definition raise {A} (e : exn) : py A := inl e.

(** [a / b]: two Python ints raise on a zero divisor; as soon as one operand is
    a [float64] the division is numpy's and never raises. *)
Definition py_truediv (a b : number) : py quotient :=
  match a, b with
  | PyInt x, PyInt y =>
      if decide (y = 0%Z) then raise ZeroDivisionError
      else mret (Fin (Qc_of_Z x / Qc_of_Z y)%Qc)
  | _, _ => mret (np_divide (value a) (value b))
  end.

(** [fraction > threshold]; a comparison with [nan] is false. *)
Definition py_gt (fraction : quotient) (threshold : Qc) : bool :=
  match fraction with
  | Fin x => bool_decide (threshold < x)%Qc
  | PInf => true
  | NInf | NaN => false
  end.

(** ** Data *)

(** A psi4 [Vector]: one array of occupations per irrep. *)
Definition vector := list (list Qc).

Definition nirrep (v : vector) : nat := length v.

(** [Vector.to_array()] of a vector with one irrep is that irrep's array.
    The C1 branch is taken on [noocs_occ.nirrep() == 1] and reads
    [noocs_vir.to_array()] as one array too: both vectors come from the same
    wavefunction and have the same irreps. *)
Definition to_array1 (v : vector) : list Qc := default [] (head v).

(** [(sym, occus, index_in_irrep)] *)
Abbreviation orbital := (nat * Qc * nat)%type.

Definition irrep_of (o : orbital) : nat := o.1.1.
Definition occus_of (o : orbital) : Qc := o.1.2.

(** The [options] dict; an absent key is [None].  [print_level] only drives
    the printing, which is not modelled. *)
Record options := Options {
  print_level : option Z;
  threshold_occ : option Qc;
  threshold_vir : option Qc;
  num_act_occ : option nat;
  num_act_vir : option nat
}.

(** The [results] dict; a key that was never assigned is [None]. *)
Record results := Results {
  active : list nat;
  nact : nat;
  nact_occ : option nat;
  nact_vir : option nat;
  sigma_o : option quotient;
  sigma_v : option quotient;
  occ_denominator : number;
  vir_denominator : number
}.

(** ** Collecting the tagged occupations and the denominators *)

(** [[(sym, occus, index_in_irrep) for index_in_irrep, occus in enumerate(a)]] *)
Definition enumerate (sym : nat) (a : list Qc) : list orbital :=
  imap (λ index_in_irrep occus, (sym, occus, index_in_irrep)) a.

(** The builtin [sum]: starts from the int [0] and adds from the left. *)
Definition py_sum (a : list Qc) : number :=
  foldl (λ s x, py_add s (NpFloat x)) (PyInt 0) a.

Record tally := Tally {
  t_occupied : list orbital;
  t_virtual : list orbital;
  t_occ_denominator : number;
  t_vir_denominator : number
}.

Definition tally0 : tally := Tally [] [] (PyInt 0) (PyInt 0).

(** One irrep's share: what the body of the [zip] loop (and, with [sym = 0],
    the C1 branch) adds. *)
Definition add_irrep (sym : nat) (occ_h vir_h : list Qc) (t : tally) : tally :=
  {| t_occupied := t_occupied t ++ enumerate sym occ_h;
     t_virtual := t_virtual t ++ enumerate sym vir_h;
     t_occ_denominator :=
       py_add (t_occ_denominator t)
              (py_sub (PyInt (Z.of_nat (length occ_h))) (py_sum occ_h));
     t_vir_denominator := py_add (t_vir_denominator t) (py_sum vir_h) |}.

(** [for noocs_occupied_h, noocs_virtual_h in zip(...)], with the counter
    [sym]. *)
Fixpoint collect (blocks : list (list Qc * list Qc)) (sym : nat) (t : tally)
    : tally :=
  match blocks with
  | [] => t
  | (occ_h, vir_h) :: rest => collect rest (S sym) (add_irrep sym occ_h vir_h t)
  end.

Definition gather (noocs_occ noocs_vir : vector) : tally :=
  if decide (nirrep noocs_occ = 1) then
    add_irrep 0 (to_array1 noocs_occ) (to_array1 noocs_vir) tally0
  else
    collect (zip noocs_occ noocs_vir) 0 tally0.

(** ** Sorting *)

(** [list.sort(key=..., reverse=...)] is stable: entries with equal keys keep
    their order, also with [reverse=True].  The keys are rationals, which [<]
    orders totally, so the stable sorted order is unique and the sorting
    method does not matter: an insertion sort stands for it.
    [insert_by before x l] puts [x], which stood before all of [l], after the
    entries that must come first. *)
Fixpoint insert_by (before : orbital → orbital → bool) (x : orbital)
    (l : list orbital) : list orbital :=
  match l with
  | [] => [x]
  | y :: l' => if before y x then y :: insert_by before x l' else x :: y :: l'
  end.

Definition sort_by (before : orbital → orbital → bool) (l : list orbital)
    : list orbital :=
  foldr (insert_by before) [] l.

(** [y] must come before [x]: its key is smaller (larger when reversed). *)
Definition key_before (reverse : bool) (y x : orbital) : bool :=
  if reverse then bool_decide (occus_of x < occus_of y)%Qc
  else bool_decide (occus_of y < occus_of x)%Qc.

(** [l.sort(reverse=reverse, key=lambda h_occus_tuple: h_occus_tuple[1])] *)
Definition list_sort (reverse : bool) (l : list orbital) : list orbital :=
  sort_by (key_before reverse) l.

(** The two internal sequences after the sort step. *)
Definition noocs_occupied (noocs_occ noocs_vir : vector) : list orbital :=
  list_sort false (t_occupied (gather noocs_occ noocs_vir)).

Definition noocs_virtual (noocs_occ noocs_vir : vector) : list orbital :=
  list_sort true (t_virtual (gather noocs_occ noocs_vir)).

(** ** The selection loops *)

(** What an orbital adds to the numerator: [1-occus] for an occupied orbital,
    [occus] for a virtual one. *)
Definition occ_contribution (occus : Qc) : number :=
  py_sub (PyInt 1) (NpFloat occus).

Definition vir_contribution (occus : Qc) : number := NpFloat occus.

(** [active[irrep] += 1] *)
Definition increment (active : list nat) (irrep : nat) : py (list nat) :=
  match active !! irrep with
  | Some c => mret (<[irrep := c + 1]> active)
  | None => raise IndexError
  end.

(** The threshold loop (lines 158-166 and 173-181): returns the numerator, the
    per-irrep counts and the number of orbitals added. *)
Fixpoint threshold_loop (contribution : Qc → number) (denominator : number)
    (threshold : Qc) (orbitals : list orbital)
    (numerator : number) (active : list nat) (n : nat)
    : py (number * list nat * nat) :=
  match orbitals with
  | [] => mret (numerator, active, n)
  | (irrep, occus, i) :: rest =>
      let numerator := py_add numerator (contribution occus) in
      fraction ← py_truediv numerator denominator;
      if py_gt fraction threshold then
        mret (py_sub numerator (contribution occus), active, n)
      else
        active ← increment active irrep;
        threshold_loop contribution denominator threshold rest
                       numerator active (S n)
  end.

(** The fixed-count loop (lines 188-193 and 198-203) over [range(n)]. *)
Fixpoint fixed_loop (contribution : Qc → number) (orbitals : list orbital)
    (range : list nat) (numerator : number) (active : list nat)
    : py (number * list nat) :=
  match range with
  | [] => mret (numerator, active)
  | k :: range =>
      match orbitals !! k with
      | None => raise IndexError
      | Some (irrep, occus, i) =>
          let numerator := py_add numerator (contribution occus) in
          active ← increment active irrep;
          fixed_loop contribution orbitals range numerator active
      end
  end.

(** [if 'threshold_*' in options.keys(): ...]: the loop, then the achieved
    fraction and the manifold's count are stored. *)
Definition threshold_branch (contribution : Qc → number)
    (denominator : number) (threshold : option Qc) (orbitals : list orbital)
    (numerator : number) (active : list nat)
    : py (number * list nat * option quotient * option nat) :=
  match threshold with
  | Some thr =>
      '(numerator, active, n) ←
        threshold_loop contribution denominator thr orbitals numerator active 0;
      sigma ← py_truediv numerator denominator;
      mret (numerator, active, Some sigma, Some n)
  | None => mret (numerator, active, None, None)
  end.

(** [if 'num_act_*' in options.keys(): ...]: the loop, then the fraction is
    stored (over the one a threshold branch may have stored). *)
Definition fixed_branch (contribution : Qc → number)
    (denominator : number) (num_act : option nat) (orbitals : list orbital)
    (numerator : number) (active : list nat) (sigma : option quotient)
    : py (number * list nat * option quotient) :=
  match num_act with
  | Some k =>
      '(numerator, active) ←
        fixed_loop contribution orbitals (seq 0 k) numerator active;
      sigma ← py_truediv numerator denominator;
      mret (numerator, active, Some sigma)
  | None => mret (numerator, active, sigma)
  end.

Definition find_active_space (noocs_occ noocs_vir : vector) (opts : options)
    : py results :=
  let active := replicate (nirrep noocs_occ) 0 in
  let t := gather noocs_occ noocs_vir in
  let occ_denominator := t_occ_denominator t in
  let vir_denominator := t_vir_denominator t in
  let noocs_occupied := list_sort false (t_occupied t) in
  let noocs_virtual := list_sort true (t_virtual t) in
  let occ_numerator := PyInt 0 in
  let vir_numerator := PyInt 0 in
  '(occ_numerator, active, sigma_o, nact_occ) ←
    threshold_branch occ_contribution occ_denominator (threshold_occ opts)
                     noocs_occupied occ_numerator active;
  '(vir_numerator, active, sigma_v, nact_vir) ←
    threshold_branch vir_contribution vir_denominator (threshold_vir opts)
                     noocs_virtual vir_numerator active;
  '(occ_numerator, active, sigma_o) ←
    fixed_branch occ_contribution occ_denominator (num_act_occ opts)
                 noocs_occupied occ_numerator active sigma_o;
  '(vir_numerator, active, sigma_v) ←
    fixed_branch vir_contribution vir_denominator (num_act_vir opts)
                 noocs_virtual vir_numerator active sigma_v;
  mret {| active := active;
          nact := sum_list active;
          nact_occ := nact_occ;
          nact_vir := nact_vir;
          sigma_o := sigma_o;
          sigma_v := sigma_v;
          occ_denominator := occ_denominator;
          vir_denominator := vir_denominator |}.


(** ** The selection, in closed form *)

(** The value [1-occus] (resp. [occus]) of a contribution. *)
Definition occ_value (occus : Qc) : Qc := (1 - occus)%Qc.
Definition vir_value (occus : Qc) : Qc := occus.

(** The sum of the contributions of a sequence, added from the left. *)
Definition cumulative (cv : Qc → Qc) (l : list orbital) : Qc :=
  foldl (λ s o, s + cv (occus_of o))%Qc 0%Qc l.


(** The length of the prefix the threshold loop commits: it stops at the
    first orbital whose tentative fraction exceeds the threshold. *)
Fixpoint within_count (cv : Qc → Qc) (d threshold : Qc) (l : list orbital)
    (acc : Qc) : nat :=
  match l with
  | [] => 0
  | o :: rest =>
      let acc := (acc + cv (occus_of o))%Qc in
      if py_gt (np_divide acc d) threshold then 0
      else S (within_count cv d threshold rest acc)
  end.

(** How many of [orbs] lie in irrep [h]. *)
Definition count_irrep (h : nat) (orbs : list orbital) : nat :=
  length (filter (λ o, irrep_of o = h) orbs).

(** The per-irrep counts after the orbitals [orbs] were added. *)
Definition tally_irreps (orbs : list orbital) (active : list nat) : list nat :=
  imap (λ h c, c + count_irrep h orbs) active.

(** The numerator a loop leaves after it added the first [k] orbitals of [l]:
    a [float64] as soon as the loop body ran. *)
Definition numerator_after (cv : Qc → Qc) (ran : bool) (numerator : number)
    (l : list orbital) (k : nat) : number :=
  if ran then NpFloat (value numerator + cumulative cv (take k l))%Qc
  else numerator.





(** The sum of an array of occupations. *)
Definition sum_Qc (a : list Qc) : Qc := foldr Qcplus 0%Qc a.

(** The irreps' enumerations one after the other, tagged from [sym] on. *)
Fixpoint flatten (sym : nat) (blocks : list (list Qc)) : list orbital :=
  match blocks with
  | [] => []
  | a :: rest => enumerate sym a ++ flatten (S sym) rest
  end.

(** The irreps the collecting step reads: the single array of each vector in
    the C1 branch, the zipped pairs otherwise. *)
Definition occ_blocks (noocs_occ noocs_vir : vector) : list (list Qc) :=
  if decide (nirrep noocs_occ = 1) then [to_array1 noocs_occ]
  else (zip noocs_occ noocs_vir).*1.

Definition vir_blocks (noocs_occ noocs_vir : vector) : list (list Qc) :=
  if decide (nirrep noocs_occ = 1) then [to_array1 noocs_vir]
  else (zip noocs_occ noocs_vir).*2.

(** The denominators, irrep after irrep. *)
Definition occ_denominator_of (blocks : list (list Qc)) : number :=
  foldl (λ den a, py_add den (py_sub (PyInt (Z.of_nat (length a))) (py_sum a)))
        (PyInt 0) blocks.

Definition vir_denominator_of (blocks : list (list Qc)) : number :=
  foldl (λ den a, py_add den (py_sum a)) (PyInt 0) blocks.

(** A [float64] rather than an int. *)
Definition is_float (n : number) : bool :=
  match n with
  | PyInt _ => false
  | NpFloat _ => true
  end.

(** The order of the keys: [<] and [≤], turned around when [reverse] is set. *)
Definition key_lt (reverse : bool) (a b : Qc) : Prop :=
  if reverse then (b < a)%Qc else (a < b)%Qc.

Definition key_le (reverse : bool) (a b : Qc) : Prop :=
  if reverse then (b ≤ a)%Qc else (a ≤ b)%Qc.

(** The order of a stable sort of irrep-ordered entries, on [(sym, occus)]:
    by key first, by irrep among equal keys. *)
Definition lex_le (reverse : bool) (a b : nat * Qc) : Prop :=
  key_lt reverse a.2 b.2 ∨ (a.2 = b.2 ∧ a.1 ≤ b.1).

(** The number of orbitals a threshold criterion selects ([0] without one). *)
Definition selected (cv : Qc → Qc) (d : Qc) (threshold : option Qc)
    (l : list orbital) (start : Qc) : nat :=
  from_option (λ thr, within_count cv d thr l start) 0 threshold.

(** The result of a call that does not raise, in closed form: the threshold
    criteria take the prefixes of lengths [n_o] and [n_v], the fixed counts
    then take the prefixes of lengths [k_o] and [k_v], all into one list of
    per-irrep counts. *)
Definition selection (noocs_occ noocs_vir : vector) (opts : options)
    : results :=
  let O := noocs_occupied noocs_occ noocs_vir in
  let V := noocs_virtual noocs_occ noocs_vir in
  let den_o := t_occ_denominator (gather noocs_occ noocs_vir) in
  let den_v := t_vir_denominator (gather noocs_occ noocs_vir) in
  let n_o := selected occ_value (value den_o) (threshold_occ opts) O 0%Qc in
  let n_v := selected vir_value (value den_v) (threshold_vir opts) V 0%Qc in
  let k_o := default 0 (num_act_occ opts) in
  let k_v := default 0 (num_act_vir opts) in
  let counts :=
    tally_irreps (take k_v V) (tally_irreps (take k_o O)
      (tally_irreps (take n_v V) (tally_irreps (take n_o O)
        (replicate (nirrep noocs_occ) 0)))) in
  {| active := counts;
     nact := sum_list counts;
     nact_occ := (λ _, n_o) <$> threshold_occ opts;
     nact_vir := (λ _, n_v) <$> threshold_vir opts;
     sigma_o :=
       match num_act_occ opts with
       | Some k =>
           Some (np_divide (cumulative occ_value (take n_o O) +
                            cumulative occ_value (take k O))%Qc (value den_o))
       | None =>
           (λ _, np_divide (cumulative occ_value (take n_o O)) (value den_o))
             <$> threshold_occ opts
       end;
     sigma_v :=
       match num_act_vir opts with
       | Some k =>
           Some (np_divide (cumulative vir_value (take n_v V) +
                            cumulative vir_value (take k V))%Qc (value den_v))
       | None =>
           (λ _, np_divide (cumulative vir_value (take n_v V)) (value den_v))
             <$> threshold_vir opts
       end;
     occ_denominator := den_o;
     vir_denominator := den_v |}.

(** Every tag of [l] is an index of [active]. *)
Definition in_range (active : list nat) (l : list orbital) : Prop :=
  Forall (λ o, irrep_of o < length active) l.

(** The place of an orbital in the input: its irrep, then its index in the
    irrep. *)
Definition position_lt (a b : orbital) : Prop :=
  irrep_of a < irrep_of b ∨ (irrep_of a = irrep_of b ∧ a.2 < b.2).

(** The order of a sorted sequence, ties included: by key, and among equal
    keys by the place in the input. *)
Definition tie_lt (reverse : bool) (a b : orbital) : Prop :=
  key_lt reverse (occus_of a) (occus_of b) ∨
  (occus_of a = occus_of b ∧ position_lt a b).

(** ** Example inputs *)

(** Rationals for the examples: [n # d]. *)
Definition qc (n : Z) (d : positive) : Qc := Q2Qc (n # d).

(** Two irreps, two occupied orbitals in each; one and two virtual ones. *)
Definition ex_occ : vector := [[qc 9 10; qc 19 20]; [qc 1 1; qc 17 20]].
Definition ex_vir : vector := [[qc 1 10]; [qc 1 20; qc 3 20]].


(** An occupied spectrum without any hole character. *)
Definition full_occ : vector := [[qc 1 1]].
Definition full_vir : vector := [[qc 1 2]].

(** * Properties *)

(** ** Numbers *)

Lemma value_py_add a b : value (py_add a b) = (value a + value b)%Qc.
Proof. destruct a, b; simpl; auto using Z2Qc_inj_add. Qed.


Lemma py_add_float_r a q : py_add a (NpFloat q) = NpFloat (value a + q)%Qc.
Proof. by destruct a. Qed.

Lemma py_truediv_float_l q b :
  py_truediv (NpFloat q) b = inr (np_divide q (value b)).
Proof. done. Qed.

Lemma py_truediv_float_r a q :
  py_truediv a (NpFloat q) = inr (np_divide (value a) q).
Proof. by destruct a. Qed.

Lemma py_truediv_zero : py_truediv (PyInt 0) (PyInt 0) = inl ZeroDivisionError.
Proof. done. Qed.


Lemma np_divide_zero a : ∀ q, np_divide a 0%Qc ≠ Fin q.
Proof. intros q. unfold np_divide. by repeat case_decide. Qed.

Lemma occ_contribution_value occus :
  occ_contribution occus = NpFloat (occ_value occus).
Proof. unfold occ_contribution, occ_value. simpl. by rewrite Z2Qc_inj_1. Qed.

Lemma vir_contribution_value occus :
  vir_contribution occus = NpFloat (vir_value occus).
Proof. done. Qed.

(** A larger threshold is exceeded less often. *)
Lemma py_gt_mono q (t1 t2 : Qc) :
  (t1 ≤ t2)%Qc → py_gt q t2 = true → py_gt q t1 = true.
Proof.
  intros Ht. destruct q as [x| | |]; simpl; try done.
  rewrite !bool_decide_eq_true. intros. by eapply Qcle_lt_trans.
Qed.

(** ** The error monad *)

Lemma py_bind_inr {A B} (f : A → py B) (m : py A) (b : B) :
  m ≫= f = inr b → ∃ a, m = inr a ∧ f a = inr b.
Proof. destruct m as [e|a]; [done|]. intros. by exists a. Qed.

(** ** Sums of contributions *)

Section cumulative.
Context (cv : Qc → Qc).

Lemma foldl_cumulative (l : list orbital) (acc : Qc) :
  foldl (λ s o, s + cv (occus_of o))%Qc acc l = (acc + cumulative cv l)%Qc.
Proof.
  unfold cumulative. revert acc.
  induction l as [|o l IH]; intros acc; simpl.
  - ring.
  - rewrite IH, (IH (0 + _)%Qc). ring.
Qed.

Lemma cumulative_nil : cumulative cv [] = 0%Qc.
Proof. done. Qed.

Lemma cumulative_cons o l :
  cumulative cv (o :: l) = (cv (occus_of o) + cumulative cv l)%Qc.
Proof. unfold cumulative at 1. simpl. rewrite foldl_cumulative. ring. Qed.

Lemma cumulative_app l1 l2 :
  cumulative cv (l1 ++ l2) = (cumulative cv l1 + cumulative cv l2)%Qc.
Proof.
  induction l1 as [|o l1 IH]; simpl.
  - rewrite cumulative_nil. ring.
  - rewrite !cumulative_cons, IH. ring.
Qed.
End cumulative.

(** ** Per-irrep counts *)

Lemma count_irrep_nil h : count_irrep h [] = 0.
Proof. done. Qed.

Lemma count_irrep_app h l1 l2 :
  count_irrep h (l1 ++ l2) = count_irrep h l1 + count_irrep h l2.
Proof. unfold count_irrep. by rewrite filter_app, length_app. Qed.

Lemma count_irrep_cons h o l :
  count_irrep h (o :: l) =
    (if decide (irrep_of o = h) then 1 else 0) + count_irrep h l.
Proof. unfold count_irrep. rewrite filter_cons. by case_decide. Qed.

Lemma length_tally_irreps orbs active :
  length (tally_irreps orbs active) = length active.
Proof. apply length_imap. Qed.

Lemma lookup_tally_irreps orbs active h :
  tally_irreps orbs active !! h = (λ c, c + count_irrep h orbs) <$> active !! h.
Proof. apply list_lookup_imap. Qed.

Lemma tally_irreps_nil active : tally_irreps [] active = active.
Proof.
  apply list_eq; intros h. rewrite lookup_tally_irreps.
  destruct (active !! h); simpl; [|done]. f_equal. rewrite count_irrep_nil. lia.
Qed.

Lemma tally_irreps_app l1 l2 active :
  tally_irreps l2 (tally_irreps l1 active) = tally_irreps (l1 ++ l2) active.
Proof.
  apply list_eq; intros h. rewrite !lookup_tally_irreps.
  destruct (active !! h); simpl; [|done]. f_equal.
  rewrite count_irrep_app. lia.
Qed.

Lemma increment_tally (active : list nat) (o : orbital) :
  irrep_of o < length active →
  increment active (irrep_of o) = inr (tally_irreps [o] active).
Proof.
  intros Hlt. unfold increment.
  destruct (lookup_lt_is_Some_2 active _ Hlt) as [c Hc]. rewrite Hc.
  simpl. f_equal. apply list_eq; intros h.
  rewrite lookup_tally_irreps, count_irrep_cons, count_irrep_nil.
  destruct (decide (irrep_of o = h)) as [<-|Hne].
  - rewrite list_lookup_insert_eq, Hc by done. simpl. f_equal; lia.
  - rewrite list_lookup_insert_ne by done.
    destruct (active !! h); simpl; [|done]. f_equal; lia.
Qed.

Lemma increment_length (active active' : list nat) irrep :
  increment active irrep = inr active' → length active' = length active.
Proof.
  unfold increment. destruct (active !! irrep); [|done].
  intros [= <-]. apply length_insert.
Qed.

Lemma increment_error (active : list nat) irrep e :
  increment active irrep = inl e → e = IndexError.
Proof. unfold increment. destruct (active !! irrep); [done|]. by intros [= <-]. Qed.

Lemma in_range_tally orbs active l :
  in_range active l → in_range (tally_irreps orbs active) l.
Proof. unfold in_range. by rewrite length_tally_irreps. Qed.

(** ** The two loops *)

Section loops.
Context (contribution : Qc → number) (cv : Qc → Qc).
Hypothesis contribution_value :
  ∀ occus, contribution occus = NpFloat (cv occus).

(** The threshold loop never raises on tags that are in range, and commits
    the first [within_count] orbitals. *)
Lemma threshold_loop_spec den thr l num active n :
  in_range active l →
  threshold_loop contribution den thr l num active n =
    inr (numerator_after cv (bool_decide (l ≠ [])) num l
                         (within_count cv (value den) thr l (value num)),
         tally_irreps (take (within_count cv (value den) thr l (value num)) l)
                      active,
         n + within_count cv (value den) thr l (value num)).
Proof.
  revert num active n.
  induction l as [|[[irrep occus] i] rest IH]; intros num active n Hr.
  - simpl. rewrite tally_irreps_nil. do 2 f_equal. lia.
  - apply Forall_cons in Hr as [Hi Hr].
    cbn [threshold_loop within_count occus_of fst snd].
    rewrite contribution_value, py_add_float_r, py_truediv_float_l.
    cbn [mbind py_bind].
    destruct (py_gt _ thr) eqn:Hgt.
    + cbn [take]. rewrite tally_irreps_nil, Nat.add_0_r.
      unfold numerator_after. rewrite bool_decide_eq_true_2 by done.
      cbn [mret py_ret py_sub value take]. do 3 f_equal.
      rewrite cumulative_nil. f_equal. ring.
    + pose proof (increment_tally active (irrep, occus, i) Hi) as Hinc.
      change (irrep_of (irrep, occus, i)) with irrep in Hinc. rewrite Hinc.
      cbn [mbind py_bind].
      rewrite IH by by apply in_range_tally.
      rewrite firstn_cons. cbn [value]. rewrite tally_irreps_app. cbn [app].
      f_equal. f_equal; [|lia]. f_equal.
      unfold numerator_after. rewrite (bool_decide_eq_true_2 (_ :: _ ≠ [])) by done.
      rewrite firstn_cons, cumulative_cons. cbn [occus_of fst snd value].
      case_bool_decide as Hrest.
      * f_equal. ring.
      * assert (rest = []) as -> by (by destruct rest). cbn [within_count firstn].
        rewrite cumulative_nil. f_equal. ring.
Qed.

(** The fixed-count loop over [range(i, i + k)] inside the sequence. *)
Lemma fixed_loop_spec l i k num active :
  i + k ≤ length l →
  in_range active l →
  fixed_loop contribution l (seq i k) num active =
    inr (numerator_after cv (bool_decide (k ≠ 0)) num (drop i l) k,
         tally_irreps (take k (drop i l)) active).
Proof.
  revert i num active.
  induction k as [|k IH]; intros i num active Hlen Hr.
  - simpl. by rewrite tally_irreps_nil.
  - cbn [seq fixed_loop].
    destruct (l !! i) as [[[irrep occus] j]|] eqn:Hi;
      [|apply lookup_ge_None in Hi; lia].
    assert (irrep < length active) as Hirrep.
    { eapply (Forall_lookup_1 _ _ _ _ Hr Hi). }
    pose proof (increment_tally active (irrep, occus, j) Hirrep) as Hinc.
    change (irrep_of (irrep, occus, j)) with irrep in Hinc. rewrite Hinc.
    cbn [mbind py_bind].
    rewrite IH by (lia || by apply in_range_tally).
    rewrite tally_irreps_app.
    rewrite (drop_S _ _ _ Hi), firstn_cons. cbn [app].
    rewrite contribution_value, py_add_float_r.
    do 2 f_equal.
    unfold numerator_after. rewrite (bool_decide_eq_true_2 (S k ≠ 0)) by done.
    rewrite firstn_cons, cumulative_cons.
    cbn [occus_of fst snd value].
    case_bool_decide as Hk.
    + f_equal. ring.
    + assert (k = 0) as -> by lia. cbn [firstn]. rewrite cumulative_nil.
      f_equal. ring.
Qed.

(** Past the end of the sequence [noocs[k]] raises. *)
Lemma fixed_loop_out_of_range l i k num active :
  i ≤ length l →
  length l < i + k →
  fixed_loop contribution l (seq i k) num active = inl IndexError.
Proof.
  revert i num active.
  induction k as [|k IH]; intros i num active Hi Hlen; [lia|].
  cbn [seq fixed_loop].
  destruct (l !! i) as [[[irrep occus] j]|] eqn:Hl; [|done].
  destruct (increment active irrep) as [e|active'] eqn:Hinc.
  - by rewrite (increment_error _ _ _ Hinc).
  - cbn [mbind py_bind]. apply lookup_lt_Some in Hl. apply IH; lia.
Qed.
End loops.

(** ** The committed prefix *)

Section within_count.
Context (cv : Qc → Qc) (d thr : Qc).

Lemma within_count_le l acc : within_count cv d thr l acc ≤ length l.
Proof.
  revert acc. induction l as [|o l IH]; intros acc; simpl; [done|].
  destruct (py_gt _ _); [lia|]. specialize (IH (acc + cv (occus_of o))%Qc). lia.
Qed.





End within_count.

(** A larger threshold never commits fewer orbitals. *)
Lemma within_count_mono cv d (t1 t2 : Qc) l acc :
  (t1 ≤ t2)%Qc → within_count cv d t1 l acc ≤ within_count cv d t2 l acc.
Proof.
  intros Ht. revert acc. induction l as [|o l IH]; intros acc; simpl; [done|].
  destruct (py_gt _ t2) eqn:H2.
  - by rewrite (py_gt_mono _ _ _ Ht H2).
  - destruct (py_gt _ t1); [lia|]. specialize (IH (acc + cv (occus_of o))%Qc). lia.
Qed.

(** ** Collecting *)

Lemma is_float_py_add a b : is_float (py_add a b) = is_float a || is_float b.
Proof. by destruct a, b. Qed.

Lemma is_float_py_sub a b : is_float (py_sub a b) = is_float a || is_float b.
Proof. by destruct a, b. Qed.


Lemma is_float_true n : is_float n = true → n = NpFloat (value n).
Proof. by destruct n. Qed.

Lemma py_truediv_is_float_r a b :
  is_float b = true → py_truediv a b = inr (np_divide (value a) (value b)).
Proof. intros ->%is_float_true. apply py_truediv_float_r. Qed.

Lemma length_enumerate sym a : length (enumerate sym a) = length a.
Proof. apply length_imap. Qed.


Lemma t_occupied_collect blocks sym t :
  t_occupied (collect blocks sym t) = t_occupied t ++ flatten sym (blocks.*1).
Proof.
  revert sym t. induction blocks as [|[occ_h vir_h] rest IH]; intros sym t.
  - simpl. by rewrite app_nil_r.
  - cbn [collect fmap list_fmap flatten fst]. rewrite IH. simpl.
    by rewrite <-app_assoc.
Qed.

Lemma t_virtual_collect blocks sym t :
  t_virtual (collect blocks sym t) = t_virtual t ++ flatten sym (blocks.*2).
Proof.
  revert sym t. induction blocks as [|[occ_h vir_h] rest IH]; intros sym t.
  - simpl. by rewrite app_nil_r.
  - cbn [collect fmap list_fmap flatten snd]. rewrite IH. simpl.
    by rewrite <-app_assoc.
Qed.

Lemma t_occ_denominator_collect blocks sym t :
  t_occ_denominator (collect blocks sym t) =
    foldl (λ den a,
             py_add den (py_sub (PyInt (Z.of_nat (length a))) (py_sum a)))
          (t_occ_denominator t) (blocks.*1).
Proof.
  revert sym t. induction blocks as [|[occ_h vir_h] rest IH]; intros sym t.
  - done.
  - cbn [collect fmap list_fmap foldl fst]. by rewrite IH.
Qed.

Lemma t_vir_denominator_collect blocks sym t :
  t_vir_denominator (collect blocks sym t) =
    foldl (λ den a, py_add den (py_sum a)) (t_vir_denominator t) (blocks.*2).
Proof.
  revert sym t. induction blocks as [|[occ_h vir_h] rest IH]; intros sym t.
  - done.
  - cbn [collect fmap list_fmap foldl snd]. by rewrite IH.
Qed.

(** What the collecting step produces, for both branches at once. *)
Lemma gather_spec noocs_occ noocs_vir :
  gather noocs_occ noocs_vir =
    {| t_occupied := flatten 0 (occ_blocks noocs_occ noocs_vir);
       t_virtual := flatten 0 (vir_blocks noocs_occ noocs_vir);
       t_occ_denominator :=
         occ_denominator_of (occ_blocks noocs_occ noocs_vir);
       t_vir_denominator :=
         vir_denominator_of (vir_blocks noocs_occ noocs_vir) |}.
Proof.
  unfold gather, occ_blocks, vir_blocks. case_decide.
  - unfold add_irrep. simpl. by rewrite !app_nil_r.
  - set (blocks := zip noocs_occ noocs_vir).
    pose proof (t_occupied_collect blocks 0 tally0).
    pose proof (t_virtual_collect blocks 0 tally0).
    pose proof (t_occ_denominator_collect blocks 0 tally0).
    pose proof (t_vir_denominator_collect blocks 0 tally0).
    destruct (collect blocks 0 tally0). simpl in *. by subst.
Qed.

(** With as many irreps in both vectors, the irreps read are the vectors'
    own: the C1 branch is the one-irrep case of the loop. *)
Lemma blocks_same_nirrep (noocs_occ noocs_vir : vector) :
  nirrep noocs_occ = nirrep noocs_vir →
  occ_blocks noocs_occ noocs_vir = noocs_occ ∧
  vir_blocks noocs_occ noocs_vir = noocs_vir.
Proof.
  unfold nirrep, occ_blocks, vir_blocks. intros Hlen. case_decide as H1.
  - destruct noocs_occ as [|a [|]]; try done.
    destruct noocs_vir as [|b [|]]; done.
  - split; [apply fst_zip | apply snd_zip]; lia.
Qed.

Lemma length_occ_blocks noocs_occ noocs_vir :
  length (occ_blocks noocs_occ noocs_vir) ≤ nirrep noocs_occ.
Proof.
  unfold occ_blocks, nirrep. case_decide as H1.
  - rewrite H1. done.
  - rewrite length_fmap, length_zip. lia.
Qed.

Lemma length_vir_blocks noocs_occ noocs_vir :
  length (vir_blocks noocs_occ noocs_vir) ≤ nirrep noocs_occ.
Proof.
  unfold vir_blocks, nirrep. case_decide as H1.
  - rewrite H1. done.
  - rewrite length_fmap, length_zip. lia.
Qed.

(** The tags of the collected orbitals are irrep numbers. *)
Lemma flatten_tags sym blocks :
  Forall (λ o, sym ≤ irrep_of o < sym + length blocks) (flatten sym blocks).
Proof.
  revert sym. induction blocks as [|a rest IH]; intros sym; simpl; [done|].
  apply Forall_app. split.
  - apply Forall_forall. intros [[h occus] i] Hin.
    apply list_elem_of_lookup in Hin as [j Hj].
    unfold enumerate in Hj. rewrite list_lookup_imap in Hj.
    destruct (a !! j); simplify_eq/=. unfold irrep_of. simpl. lia.
  - eapply Forall_impl; [apply (IH (S sym))|]. simpl. intros; lia.
Qed.

Lemma flatten_in_range blocks n :
  length blocks ≤ n → in_range (replicate n 0) (flatten 0 blocks).
Proof.
  intros Hn. unfold in_range. rewrite length_replicate.
  eapply Forall_impl; [apply flatten_tags|]. simpl. intros; lia.
Qed.

(** ** The denominators *)

Lemma foldl_py_sum (a : list Qc) (acc : number) :
  value (foldl (λ s x, py_add s (NpFloat x)) acc a) = (value acc + sum_Qc a)%Qc ∧
  is_float (foldl (λ s x, py_add s (NpFloat x)) acc a) =
    is_float acc || bool_decide (a ≠ []).
Proof.
  revert acc. induction a as [|x a IH]; intros acc; simpl.
  - split; [ring|]. by rewrite orb_false_r.
  - destruct (IH (py_add acc (NpFloat x))) as [-> ->].
    rewrite value_py_add, is_float_py_add. simpl. split; [ring|].
    by rewrite !orb_true_r.
Qed.


Lemma is_float_py_sum a : is_float (py_sum a) = bool_decide (a ≠ []).
Proof. unfold py_sum. by rewrite (proj2 (foldl_py_sum a _)). Qed.



Lemma flatten_nil_inv sym blocks :
  flatten sym blocks = [] → Forall (λ a, a = []) blocks.
Proof.
  revert sym. induction blocks as [|a rest IH]; intros sym; simpl; [done|].
  intros [Ha Hrest]%app_eq_nil. constructor; [|by eapply IH].
  apply (f_equal length) in Ha. rewrite length_enumerate in Ha.
  by destruct a.
Qed.

(** No orbital at all: the denominator is still the int [0]. *)
Lemma occ_denominator_of_empty sym blocks :
  flatten sym blocks = [] → occ_denominator_of blocks = PyInt 0.
Proof.
  intros Hall%flatten_nil_inv. unfold occ_denominator_of.
  induction Hall as [|a rest -> _ IH]; [done|]. simpl. apply IH.
Qed.

Lemma vir_denominator_of_empty sym blocks :
  flatten sym blocks = [] → vir_denominator_of blocks = PyInt 0.
Proof.
  intros Hall%flatten_nil_inv. unfold vir_denominator_of.
  induction Hall as [|a rest -> _ IH]; [done|]. simpl. apply IH.
Qed.

(** One orbital is enough to make the denominator a [float64]. *)
Lemma occ_denominator_of_float sym blocks :
  flatten sym blocks ≠ [] → is_float (occ_denominator_of blocks) = true.
Proof.
  unfold occ_denominator_of. generalize (PyInt 0). revert sym.
  induction blocks as [|a rest IH]; intros sym acc; [done|].
  cbn [foldl]. intros Hne. destruct a as [|x a].
  - simpl in Hne. by apply (IH (S sym)).
  - clear Hne IH. set (acc' := py_add acc _).
    assert (is_float acc' = true) as Hacc.
    { unfold acc'. rewrite is_float_py_add, is_float_py_sub, is_float_py_sum.
      rewrite bool_decide_eq_true_2 by done. by rewrite orb_true_r. }
    clearbody acc'. revert acc' Hacc.
    induction rest as [|b rest IH]; intros acc' Hacc; [done|].
    cbn [foldl]. apply IH. rewrite is_float_py_add, Hacc. done.
Qed.

Lemma vir_denominator_of_float sym blocks :
  flatten sym blocks ≠ [] → is_float (vir_denominator_of blocks) = true.
Proof.
  unfold vir_denominator_of. generalize (PyInt 0). revert sym.
  induction blocks as [|a rest IH]; intros sym acc; [done|].
  cbn [foldl]. intros Hne. destruct a as [|x a].
  - simpl in Hne. by apply (IH (S sym)).
  - clear Hne IH. set (acc' := py_add acc _).
    assert (is_float acc' = true) as Hacc.
    { unfold acc'. rewrite is_float_py_add, is_float_py_sum.
      rewrite bool_decide_eq_true_2 by done. by rewrite orb_true_r. }
    clearbody acc'. revert acc' Hacc.
    induction rest as [|b rest IH]; intros acc' Hacc; [done|].
    cbn [foldl]. apply IH. rewrite is_float_py_add, Hacc. done.
Qed.




(** ** Sorting *)

Section sorting.
Context (reverse : bool).

Lemma key_before_spec y x :
  key_before reverse y x = true ↔ key_lt reverse (occus_of y) (occus_of x).
Proof.
  unfold key_before, key_lt. destruct reverse; apply bool_decide_eq_true.
Qed.

Lemma key_lt_le a b : key_lt reverse a b → key_le reverse a b.
Proof. unfold key_lt, key_le. destruct reverse; apply Qclt_le_weak. Qed.

Lemma key_not_lt_le a b : ¬ key_lt reverse a b → key_le reverse b a.
Proof. unfold key_lt, key_le. destruct reverse; apply Qcnot_lt_le. Qed.

Lemma key_le_lt_or_eq a b : key_le reverse a b → key_lt reverse a b ∨ a = b.
Proof.
  unfold key_lt, key_le. destruct reverse; intros [?| ->]%Qcle_lt_or_eq; auto.
Qed.

Lemma key_lt_irrefl a : ¬ key_lt reverse a a.
Proof.
  unfold key_lt. destruct reverse; intros H; by apply Qclt_not_eq in H.
Qed.

Global Instance key_le_trans : Transitive (key_le reverse).
Proof.
  unfold key_le. destruct reverse; intros a b c ??; by eapply Qcle_trans.
Qed.

Global Instance key_lt_trans : Transitive (key_lt reverse).
Proof.
  unfold key_lt. destruct reverse; intros a b c ??; by eapply Qclt_trans.
Qed.

Global Instance lex_le_trans : Transitive (lex_le reverse).
Proof.
  intros a b c [Hab|[Hab ?]] [Hbc|[Hbc ?]]; unfold lex_le.
  - left. by etrans.
  - left. by rewrite <-Hbc.
  - left. by rewrite Hab.
  - right. split; [congruence|lia].
Qed.

Global Instance lex_le_antisym : AntiSymm (=) (lex_le reverse).
Proof.
  intros [h o] [h' o'] [Hab|[Hab ?]] [Hba|[Hba ?]]; simpl in *.
  - destruct (key_lt_irrefl o). by etrans.
  - subst. by destruct (key_lt_irrefl o).
  - subst. by destruct (key_lt_irrefl o').
  - subst. f_equal. lia.
Qed.

Lemma insert_by_Permutation before x l : insert_by before x l ≡ₚ x :: l.
Proof.
  induction l as [|y l IH]; simpl; [done|].
  destruct (before y x); [|done]. rewrite IH. apply Permutation_swap.
Qed.

Lemma sort_by_Permutation before l : sort_by before l ≡ₚ l.
Proof.
  induction l as [|x l IH]; simpl; [done|].
  rewrite insert_by_Permutation. by f_equiv.
Qed.

Lemma list_sort_Permutation l : list_sort reverse l ≡ₚ l.
Proof. apply sort_by_Permutation. Qed.

(** The sorted list is ordered by key. *)
Lemma insert_by_sorted x l :
  StronglySorted (λ a b, key_le reverse (occus_of a) (occus_of b)) l →
  StronglySorted (λ a b, key_le reverse (occus_of a) (occus_of b))
                 (insert_by (key_before reverse) x l).
Proof.
  induction l as [|y l IH]; simpl.
  - intros _. by repeat constructor.
  - intros [Hy Hl]%StronglySorted_cons.
    destruct (key_before reverse y x) eqn:Hb.
    + apply key_before_spec, key_lt_le in Hb.
      apply StronglySorted_cons. split; [|by apply IH].
      rewrite insert_by_Permutation. by constructor.
    + assert (key_le reverse (occus_of x) (occus_of y)) as Hxy.
      { apply key_not_lt_le. rewrite <-key_before_spec. congruence. }
      apply StronglySorted_cons. split.
      * constructor; [done|]. eapply Forall_impl; [exact Hy|].
        simpl. intros z Hz. by etrans.
      * by apply StronglySorted_cons.
Qed.

Lemma list_sort_sorted l :
  StronglySorted (λ a b, key_le reverse (occus_of a) (occus_of b))
                 (list_sort reverse l).
Proof.
  unfold list_sort, sort_by. induction l as [|x l IH]; simpl.
  - constructor.
  - by apply insert_by_sorted.
Qed.


End sorting.


(** ** The four branches *)

Section branches.
Context (contribution : Qc → number) (cv : Qc → Qc).
Hypothesis contribution_value :
  ∀ occus, contribution occus = NpFloat (cv occus).

Lemma value_numerator_after ran num l k :
  (ran = false → k = 0) →
  value (numerator_after cv ran num l k) =
    (value num + cumulative cv (take k l))%Qc.
Proof.
  destruct ran; simpl; [done|]. intros ->; [|done]. simpl.
  rewrite cumulative_nil. ring.
Qed.

Lemma threshold_branch_spec den thr l num active :
  in_range active l →
  (is_Some thr → is_float den = true) →
  ∃ num',
    threshold_branch contribution den thr l num active =
      inr (num',
           tally_irreps (take (selected cv (value den) thr l (value num)) l)
                        active,
           (λ _, np_divide
                   (value num + cumulative cv
                      (take (selected cv (value den) thr l (value num)) l))%Qc
                   (value den)) <$> thr,
           (λ _, selected cv (value den) thr l (value num)) <$> thr) ∧
    value num' =
      (value num + cumulative cv
         (take (selected cv (value den) thr l (value num)) l))%Qc.
Proof.
  intros Hr Hden. destruct thr as [thr|]; simpl.
  - assert (bool_decide (l ≠ []) = false →
            within_count cv (value den) thr l (value num) = 0) as H0.
    { intros Hl%bool_decide_eq_false. destruct l; [done|by destruct Hl]. }
    rewrite (threshold_loop_spec _ cv contribution_value) by done.
    cbn [mbind py_bind].
    rewrite py_truediv_is_float_r by eauto.
    rewrite value_numerator_after by done.
    cbn [mbind py_bind mret py_ret].
    eexists. split; [done|]. by apply value_numerator_after.
  - exists num. split; [by rewrite tally_irreps_nil|].
    rewrite cumulative_nil. ring.
Qed.

(** A threshold criterion on a manifold without orbitals: the loop body
    never runs and the two ints [0] are divided. *)
Lemma threshold_branch_empty thr active :
  threshold_branch contribution (PyInt 0) (Some thr) [] (PyInt 0) active =
    inl ZeroDivisionError.
Proof. done. Qed.

Lemma fixed_branch_spec den k l num active sigma :
  in_range active l →
  (is_Some k → is_float den = true) →
  (∀ k', k = Some k' → k' ≤ length l) →
  ∃ num',
    fixed_branch contribution den k l num active sigma =
      inr (num',
           tally_irreps (take (default 0 k) l) active,
           match k with
           | Some k' =>
               Some (np_divide (value num + cumulative cv (take k' l))%Qc
                               (value den))
           | None => sigma
           end) ∧
    value num' = (value num + cumulative cv (take (default 0%nat k) l))%Qc.
Proof.
  intros Hr Hden Hk. destruct k as [k|]; simpl.
  - assert (bool_decide (k ≠ 0) = false → k = 0) as H0.
    { intros Hl%bool_decide_eq_false. lia. }
    rewrite (fixed_loop_spec _ cv contribution_value) by (simpl; eauto).
    cbn [mbind py_bind]. rewrite drop_0.
    rewrite py_truediv_is_float_r by eauto.
    rewrite value_numerator_after by done.
    cbn [mbind py_bind mret py_ret].
    eexists. split; [done|]. by apply value_numerator_after.
  - exists num. split; [by rewrite tally_irreps_nil|].
    rewrite cumulative_nil. ring.
Qed.

(** A fixed count above the number of orbitals: [noocs[k]] raises. *)
Lemma fixed_branch_out_of_range den k l num active sigma :
  length l < k →
  fixed_branch contribution den (Some k) l num active sigma =
    inl IndexError.
Proof.
  intros Hk. unfold fixed_branch.
  rewrite fixed_loop_out_of_range by (simpl; lia). done.
Qed.
End branches.

(** ** The whole call *)

Section call.
Context (noocs_occ noocs_vir : vector).

Lemma noocs_occupied_Permutation :
  noocs_occupied noocs_occ noocs_vir ≡ₚ
    flatten 0 (occ_blocks noocs_occ noocs_vir).
Proof.
  unfold noocs_occupied. rewrite gather_spec. apply list_sort_Permutation.
Qed.

Lemma noocs_virtual_Permutation :
  noocs_virtual noocs_occ noocs_vir ≡ₚ
    flatten 0 (vir_blocks noocs_occ noocs_vir).
Proof.
  unfold noocs_virtual. rewrite gather_spec. apply list_sort_Permutation.
Qed.

Lemma noocs_occupied_in_range active :
  length active = nirrep noocs_occ →
  in_range active (noocs_occupied noocs_occ noocs_vir).
Proof.
  intros Hlen. unfold in_range. rewrite noocs_occupied_Permutation, Hlen.
  pose proof (flatten_in_range _ _ (length_occ_blocks noocs_occ noocs_vir)) as H.
  unfold in_range in H. by rewrite length_replicate in H.
Qed.

Lemma noocs_virtual_in_range active :
  length active = nirrep noocs_occ →
  in_range active (noocs_virtual noocs_occ noocs_vir).
Proof.
  intros Hlen. unfold in_range. rewrite noocs_virtual_Permutation, Hlen.
  pose proof (flatten_in_range _ _ (length_vir_blocks noocs_occ noocs_vir)) as H.
  unfold in_range in H. by rewrite length_replicate in H.
Qed.

(** The denominator of a manifold is a [float64] exactly when the manifold
    has an orbital; otherwise it is the int [0] it started as. *)
Lemma occ_denominator_float :
  noocs_occupied noocs_occ noocs_vir ≠ [] →
  is_float (t_occ_denominator (gather noocs_occ noocs_vir)) = true.
Proof.
  intros Hne. rewrite gather_spec. simpl.
  apply (occ_denominator_of_float 0). intros Hnil.
  apply Hne, Permutation_nil_r. by rewrite <-Hnil, noocs_occupied_Permutation.
Qed.

Lemma vir_denominator_float :
  noocs_virtual noocs_occ noocs_vir ≠ [] →
  is_float (t_vir_denominator (gather noocs_occ noocs_vir)) = true.
Proof.
  intros Hne. rewrite gather_spec. simpl.
  apply (vir_denominator_of_float 0). intros Hnil.
  apply Hne, Permutation_nil_r. by rewrite <-Hnil, noocs_virtual_Permutation.
Qed.

Lemma occ_denominator_empty :
  noocs_occupied noocs_occ noocs_vir = [] →
  t_occ_denominator (gather noocs_occ noocs_vir) = PyInt 0.
Proof.
  intros Hnil. rewrite gather_spec. simpl.
  apply (occ_denominator_of_empty 0), Permutation_nil.
  by rewrite <-noocs_occupied_Permutation, Hnil.
Qed.

Lemma vir_denominator_empty :
  noocs_virtual noocs_occ noocs_vir = [] →
  t_vir_denominator (gather noocs_occ noocs_vir) = PyInt 0.
Proof.
  intros Hnil. rewrite gather_spec. simpl.
  apply (vir_denominator_of_empty 0), Permutation_nil.
  by rewrite <-noocs_virtual_Permutation, Hnil.
Qed.



(** The call returns [selection] whenever every manifold that has a
    criterion has an orbital and no fixed count is above the number of
    orbitals. *)
Lemma find_active_space_spec opts :
  (is_Some (threshold_occ opts) ∨ is_Some (num_act_occ opts) →
   noocs_occupied noocs_occ noocs_vir ≠ []) →
  (is_Some (threshold_vir opts) ∨ is_Some (num_act_vir opts) →
   noocs_virtual noocs_occ noocs_vir ≠ []) →
  (∀ k, num_act_occ opts = Some k →
        k ≤ length (noocs_occupied noocs_occ noocs_vir)) →
  (∀ k, num_act_vir opts = Some k →
        k ≤ length (noocs_virtual noocs_occ noocs_vir)) →
  find_active_space noocs_occ noocs_vir opts =
    inr (selection noocs_occ noocs_vir opts).
Proof.
  intros HO HV HkO HkV. unfold find_active_space. cbv zeta.
  fold (noocs_occupied noocs_occ noocs_vir).
  fold (noocs_virtual noocs_occ noocs_vir).
  set (O := noocs_occupied noocs_occ noocs_vir) in *.
  set (V := noocs_virtual noocs_occ noocs_vir) in *.
  set (den_o := t_occ_denominator (gather noocs_occ noocs_vir)).
  set (den_v := t_vir_denominator (gather noocs_occ noocs_vir)).
  set (zeros := replicate (nirrep noocs_occ) 0).
  assert (length zeros = nirrep noocs_occ) as Hz by apply length_replicate.
  destruct (threshold_branch_spec _ _ occ_contribution_value den_o
              (threshold_occ opts) O (PyInt 0) zeros) as (num1 & -> & Hv1).
  { by apply noocs_occupied_in_range. }
  { intros ?. apply occ_denominator_float; auto. }
  cbn [mbind py_bind].
  destruct (threshold_branch_spec _ _ vir_contribution_value den_v
              (threshold_vir opts) V (PyInt 0)
              (tally_irreps
                 (take (selected occ_value (value den_o) (threshold_occ opts)
                                 O (value (PyInt 0))) O) zeros))
    as (num2 & -> & Hv2).
  { apply noocs_virtual_in_range. by rewrite length_tally_irreps. }
  { intros ?. apply vir_denominator_float; auto. }
  cbn [mbind py_bind].
  destruct (fixed_branch_spec _ _ occ_contribution_value den_o
              (num_act_occ opts) O num1
              (tally_irreps
                 (take (selected vir_value (value den_v) (threshold_vir opts)
                                 V (value (PyInt 0))) V)
                 (tally_irreps
                    (take (selected occ_value (value den_o)
                                    (threshold_occ opts) O (value (PyInt 0)))
                          O) zeros))
              ((λ _, np_divide
                       (value (PyInt 0) + cumulative occ_value
                          (take (selected occ_value (value den_o)
                                   (threshold_occ opts) O (value (PyInt 0)))
                                O))%Qc (value den_o)) <$> threshold_occ opts))
    as (num3 & -> & Hv3).
  { apply noocs_occupied_in_range. by rewrite !length_tally_irreps. }
  { intros ?. apply occ_denominator_float; auto. }
  { done. }
  cbn [mbind py_bind].
  destruct (fixed_branch_spec _ _ vir_contribution_value den_v
              (num_act_vir opts) V num2
              (tally_irreps (take (default 0 (num_act_occ opts)) O)
                 (tally_irreps
                    (take (selected vir_value (value den_v)
                                    (threshold_vir opts) V (value (PyInt 0)))
                          V)
                    (tally_irreps
                       (take (selected occ_value (value den_o)
                                       (threshold_occ opts) O
                                       (value (PyInt 0))) O) zeros)))
              ((λ _, np_divide
                       (value (PyInt 0) + cumulative vir_value
                          (take (selected vir_value (value den_v)
                                   (threshold_vir opts) V (value (PyInt 0)))
                                V))%Qc (value den_v)) <$> threshold_vir opts))
    as (num4 & -> & Hv4).
  { apply noocs_virtual_in_range. by rewrite !length_tally_irreps. }
  { intros ?. apply vir_denominator_float; auto. }
  { done. }
  cbn [mbind py_bind mret py_ret]. f_equal.
  rewrite Hv1, Hv2. cbn [value]. rewrite Z2Qc_inj_0, !Qcplus_0_l.
  unfold selection. cbv zeta. fold O V den_o den_v zeros. done.
Qed.
End call.

(** ** Totals *)

Lemma tally_irreps_one (o : orbital) (active : list nat) :
  tally_irreps [o] active = alter S (irrep_of o) active.
Proof.
  apply list_eq; intros h.
  rewrite lookup_tally_irreps, count_irrep_cons, count_irrep_nil.
  destruct (decide (irrep_of o = h)) as [<-|Hne].
  - rewrite list_lookup_alter_eq. destruct (active !! _); simpl; [|done].
    f_equal; lia.
  - rewrite list_lookup_alter_ne by done.
    destruct (active !! h); simpl; [|done]. f_equal; lia.
Qed.

Lemma sum_list_alter_S (active : list nat) h :
  h < length active → sum_list (alter S h active) = S (sum_list active).
Proof.
  revert h. induction active as [|c active IH]; intros h; simpl; [lia|].
  destruct h as [|h]; intros Hh.
  - simpl. lia.
  - change (alter S (S h) (c :: active)) with (c :: alter S h active).
    simpl. rewrite IH; lia.
Qed.

(** Every orbital added counts once in the total. *)
Lemma sum_list_tally_irreps orbs active :
  in_range active orbs →
  sum_list (tally_irreps orbs active) = sum_list active + length orbs.
Proof.
  revert active. induction orbs as [|o orbs IH]; intros active Hr.
  - rewrite tally_irreps_nil. simpl. lia.
  - apply Forall_cons in Hr as [Ho Hr].
    change (o :: orbs) with ([o] ++ orbs). rewrite <-tally_irreps_app.
    rewrite IH by by apply in_range_tally.
    rewrite tally_irreps_one, sum_list_alter_S by done. simpl. lia.
Qed.

Lemma in_range_take active l k : in_range active l → in_range active (take k l).
Proof. apply Forall_take. Qed.

(** ** The closed form, read per irrep *)

Section selection.
Context (noocs_occ noocs_vir : vector) (opts : options).

Lemma selected_le cv d thr l start : selected cv d thr l start ≤ length l.
Proof.
  destruct thr; simpl; [apply within_count_le|lia].
Qed.

Lemma selection_lookup h :
  h < nirrep noocs_occ →
  active (selection noocs_occ noocs_vir opts) !! h =
    Some (count_irrep h
            (take (selected occ_value
                     (value (t_occ_denominator (gather noocs_occ noocs_vir)))
                     (threshold_occ opts)
                     (noocs_occupied noocs_occ noocs_vir) 0%Qc)
                  (noocs_occupied noocs_occ noocs_vir)) +
          count_irrep h
            (take (selected vir_value
                     (value (t_vir_denominator (gather noocs_occ noocs_vir)))
                     (threshold_vir opts)
                     (noocs_virtual noocs_occ noocs_vir) 0%Qc)
                  (noocs_virtual noocs_occ noocs_vir)) +
          count_irrep h (take (default 0 (num_act_occ opts))
                              (noocs_occupied noocs_occ noocs_vir)) +
          count_irrep h (take (default 0 (num_act_vir opts))
                              (noocs_virtual noocs_occ noocs_vir))).
Proof.
  intros Hh. unfold selection. cbv zeta. cbn [active].
  rewrite !lookup_tally_irreps, lookup_replicate_2 by done.
  simpl. f_equal.
Qed.

Lemma selection_nact :
  default 0 (num_act_occ opts)
    ≤ length (noocs_occupied noocs_occ noocs_vir) →
  default 0 (num_act_vir opts)
    ≤ length (noocs_virtual noocs_occ noocs_vir) →
  nact (selection noocs_occ noocs_vir opts) =
    selected occ_value
      (value (t_occ_denominator (gather noocs_occ noocs_vir)))
      (threshold_occ opts) (noocs_occupied noocs_occ noocs_vir) 0%Qc +
    selected vir_value
      (value (t_vir_denominator (gather noocs_occ noocs_vir)))
      (threshold_vir opts) (noocs_virtual noocs_occ noocs_vir) 0%Qc +
    default 0 (num_act_occ opts) + default 0 (num_act_vir opts).
Proof.
  pose proof (selected_le occ_value
                (value (t_occ_denominator (gather noocs_occ noocs_vir)))
                (threshold_occ opts)
                (noocs_occupied noocs_occ noocs_vir) 0%Qc).
  pose proof (selected_le vir_value
                (value (t_vir_denominator (gather noocs_occ noocs_vir)))
                (threshold_vir opts)
                (noocs_virtual noocs_occ noocs_vir) 0%Qc).
  intros HkO HkV. unfold selection. cbv zeta. cbn [nact].
  rewrite !sum_list_tally_irreps.
  - rewrite sum_list_replicate, !length_take. lia.
  - apply in_range_take, noocs_occupied_in_range, length_replicate.
  - apply in_range_take, noocs_virtual_in_range.
    by rewrite length_tally_irreps, length_replicate.
  - apply in_range_take, noocs_occupied_in_range.
    by rewrite !length_tally_irreps, length_replicate.
  - apply in_range_take, noocs_virtual_in_range.
    by rewrite !length_tally_irreps, length_replicate.
Qed.

Lemma selection_length_active :
  length (active (selection noocs_occ noocs_vir opts)) = nirrep noocs_occ.
Proof.
  unfold selection. cbv zeta. cbn [active].
  by rewrite !length_tally_irreps, length_replicate.
Qed.
End selection.

(** ** Fractions against the threshold *)




Section fractions.
Context (cv : Qc → Qc) (d thr : Qc).




End fractions.

(** * The claims *)

(** C5. After the sort step the internal occupied sequence is non-decreasing
    by occupation and the internal virtual sequence is non-increasing by
    occupation, whatever the order of the input spectra; both hold exactly
    the orbitals that were collected, so the occupied orbitals with the least
    occupation and the virtual orbitals with the most come first. *)
Theorem C5_sorted_sequences (noocs_occ noocs_vir : vector) :
  StronglySorted (λ a b, (occus_of a ≤ occus_of b)%Qc)
                 (noocs_occupied noocs_occ noocs_vir) ∧
  StronglySorted (λ a b, (occus_of b ≤ occus_of a)%Qc)
                 (noocs_virtual noocs_occ noocs_vir) ∧
  noocs_occupied noocs_occ noocs_vir ≡ₚ
    flatten 0 (occ_blocks noocs_occ noocs_vir) ∧
  noocs_virtual noocs_occ noocs_vir ≡ₚ
    flatten 0 (vir_blocks noocs_occ noocs_vir).
Proof.
  split; [apply (list_sort_sorted false)|].
  split; [apply (list_sort_sorted true)|].
  split; [apply noocs_occupied_Permutation|apply noocs_virtual_Permutation].
Qed.











(** ** What a returned result holds *)

Section inversion.
Context (contribution : Qc → number).

Lemma threshold_loop_length den thr l num active n num' active' n' :
  threshold_loop contribution den thr l num active n
    = inr (num', active', n') →
  length active' = length active.
Proof.
  revert num active n.
  induction l as [|[[irrep occus] i] rest IH]; intros num active n; simpl.
  - by intros [= _ <- _].
  - intros H. apply py_bind_inr in H as (fraction & _ & H).
    destruct (py_gt fraction thr).
    + by injection H as _ <- _.
    + apply py_bind_inr in H as (active1 & Hinc & H).
      apply increment_length in Hinc. apply IH in H. congruence.
Qed.

Lemma fixed_loop_length l range num active num' active' :
  fixed_loop contribution l range num active = inr (num', active') →
  length active' = length active.
Proof.
  revert num active.
  induction range as [|k range IH]; intros num active; simpl.
  - by intros [= _ <-].
  - destruct (l !! k) as [[[irrep occus] i]|]; [|done]. intros H.
    apply py_bind_inr in H as (active1 & Hinc & H).
    apply increment_length in Hinc. apply IH in H. congruence.
Qed.

(** A threshold branch stores the fraction and the count exactly when the
    threshold key is present. *)
Lemma threshold_branch_inr den thr l num active num' active' sigma n :
  threshold_branch contribution den thr l num active
    = inr (num', active', sigma, n) →
  length active' = length active ∧
  (is_Some sigma ↔ is_Some thr) ∧ (is_Some n ↔ is_Some thr).
Proof.
  unfold threshold_branch. destruct thr as [thr|].
  - intros H. apply py_bind_inr in H as ([[num1 active1] n1] & Hloop & H).
    apply py_bind_inr in H as (fraction & _ & H).
    injection H as <- <- <- <-.
    apply threshold_loop_length in Hloop.
    split; [done|]. split; split; eauto.
  - intros [= <- <- <- <-]. split; [done|].
    split; split; intros [? [=]].
Qed.

(** A fixed-count branch stores a fraction when its key is present and
    leaves the stored one alone otherwise. *)
Lemma fixed_branch_inr den k l num active sigma num' active' sigma' :
  fixed_branch contribution den k l num active sigma
    = inr (num', active', sigma') →
  length active' = length active ∧
  (is_Some k → is_Some sigma') ∧ (k = None → sigma' = sigma).
Proof.
  unfold fixed_branch. destruct k as [k|].
  - intros H. apply py_bind_inr in H as ([num1 active1] & Hloop & H).
    apply py_bind_inr in H as (fraction & _ & H).
    injection H as <- <- <-.
    apply fixed_loop_length in Hloop.
    split; [done|]. split; [eauto|done].
  - intros [= <- <- <-]. split; [done|]. split; [by intros [? [=]]|done].
Qed.
End inversion.

(** C8, as the code has it.  Every successful call returns the per-irrep
    counts (one per irrep of the input, in its order), their sum as the total
    and the two denominators.  The achieved fraction and the active count of
    a manifold are returned when the call has a threshold for that manifold;
    the fraction also when it has a fixed count; a manifold without any
    criterion gets neither. *)
Theorem C8_returned_keys (noocs_occ noocs_vir : vector) (opts : options)
    (r : results) :
  find_active_space noocs_occ noocs_vir opts = inr r →
  length (active r) = nirrep noocs_occ ∧
  nact r = sum_list (active r) ∧
  occ_denominator r = t_occ_denominator (gather noocs_occ noocs_vir) ∧
  vir_denominator r = t_vir_denominator (gather noocs_occ noocs_vir) ∧
  (is_Some (threshold_occ opts) →
   is_Some (nact_occ r) ∧ is_Some (sigma_o r)) ∧
  (is_Some (threshold_vir opts) →
   is_Some (nact_vir r) ∧ is_Some (sigma_v r)) ∧
  (is_Some (num_act_occ opts) → is_Some (sigma_o r)) ∧
  (is_Some (num_act_vir opts) → is_Some (sigma_v r)) ∧
  (threshold_occ opts = None → num_act_occ opts = None →
   nact_occ r = None ∧ sigma_o r = None) ∧
  (threshold_vir opts = None → num_act_vir opts = None →
   nact_vir r = None ∧ sigma_v r = None).
Proof.
  unfold find_active_space. cbv zeta. intros H.
  apply py_bind_inr in H as ([[[num1 active1] s1] n1] & H1 & H).
  apply py_bind_inr in H as ([[[num2 active2] s2] n2] & H2 & H).
  apply py_bind_inr in H as ([[num3 active3] s3] & H3 & H).
  apply py_bind_inr in H as ([[num4 active4] s4] & H4 & H).
  injection H as <-. cbn [active nact nact_occ nact_vir sigma_o sigma_v
                          occ_denominator vir_denominator].
  apply threshold_branch_inr in H1 as (L1 & S1 & N1).
  apply threshold_branch_inr in H2 as (L2 & S2 & N2).
  apply fixed_branch_inr in H3 as (L3 & S3 & K3).
  apply fixed_branch_inr in H4 as (L4 & S4 & K4).
  split; [by rewrite L4, L3, L2, L1, length_replicate|].
  do 3 (split; [done|]).
  split; [intros Ht; split; [by apply N1|]|].
  { destruct (num_act_occ opts) as [k|]; [by apply S3|].
    rewrite K3 by done. by apply S1. }
  split; [intros Ht; split; [by apply N2|]|].
  { destruct (num_act_vir opts) as [k|]; [by apply S4|].
    rewrite K4 by done. by apply S2. }
  split; [done|]. split; [done|].
  split.
  - intros Ht Hk. rewrite Ht in S1, N1. rewrite K3 by done.
    split; apply eq_None_not_Some; [rewrite N1|rewrite S1]; by intros [? [=]].
  - intros Ht Hk. rewrite Ht in S2, N2. rewrite K4 by done.
    split; apply eq_None_not_Some; [rewrite N2|rewrite S2]; by intros [? [=]].
Qed.

Lemma C8_witness :
  ∃ r, find_active_space ex_occ ex_vir
         (Options None (Some (qc 98 100)) None None None) = inr r ∧
       length (active r) = 2 ∧ is_Some (sigma_o r) ∧ sigma_v r = None.
Proof.
  eexists. split; [vm_compute; reflexivity|].
  match goal with
  | |- context [active ?r] =>
      destruct (C8_returned_keys ex_occ ex_vir
                  (Options None (Some (qc 98 100)) None None None) r)
        as (Hlen & _ & _ & _ & Ho & _ & _ & _ & _ & Hv)
  end.
  - vm_compute. reflexivity.
  - split; [exact Hlen|]. split.
    + apply Ho. by eexists.
    + by apply Hv.
Defined.

(** The claim C8 fails: a call in fixed-count mode returns no active count
    for either manifold, and a manifold without a criterion has no fraction
    either. *)
Lemma C8_counterexample :
  ∃ r, find_active_space ex_occ ex_vir
         (Options None None None (Some 1) None) = inr r ∧
       nact_occ r = None ∧ nact_vir r = None ∧ sigma_v r = None.
Proof. eexists. split; [vm_compute; reflexivity|]. by repeat split. Qed.

(** ** Division by zero *)

Lemma np_divide_by_zero a : np_divide a 0%Qc ∈ [NaN; PInf; NInf].
Proof.
  unfold np_divide. rewrite decide_True by done.
  repeat case_decide; rewrite !elem_of_cons; auto.
Qed.

Section empty_manifold.
Context (noocs_occ noocs_vir : vector) (opts : options).

(** A threshold on an occupied manifold without orbitals divides the int
    [0] by the int [0]. *)
Lemma threshold_occ_empty_raises :
  is_Some (threshold_occ opts) →
  noocs_occupied noocs_occ noocs_vir = [] →
  find_active_space noocs_occ noocs_vir opts = inl ZeroDivisionError.
Proof.
  intros [thr Hthr] HO. unfold find_active_space. cbv zeta.
  fold (noocs_occupied noocs_occ noocs_vir).
  by rewrite Hthr, HO, occ_denominator_empty.
Qed.

Lemma threshold_vir_empty_raises :
  is_Some (threshold_vir opts) →
  noocs_virtual noocs_occ noocs_vir = [] →
  find_active_space noocs_occ noocs_vir opts = inl ZeroDivisionError.
Proof.
  intros [thr Hthr] HV.
  destruct (decide (is_Some (threshold_occ opts) ∧
                    noocs_occupied noocs_occ noocs_vir = [])) as [[??]|Hne].
  { by apply threshold_occ_empty_raises. }
  unfold find_active_space. cbv zeta.
  fold (noocs_occupied noocs_occ noocs_vir).
  fold (noocs_virtual noocs_occ noocs_vir).
  destruct (threshold_branch_spec _ _ occ_contribution_value
              (t_occ_denominator (gather noocs_occ noocs_vir))
              (threshold_occ opts) (noocs_occupied noocs_occ noocs_vir)
              (PyInt 0) (replicate (nirrep noocs_occ) 0))
    as (num1 & -> & _).
  { apply noocs_occupied_in_range, length_replicate. }
  { intros Hs. apply occ_denominator_float. intros HO. by apply Hne. }
  cbn [mbind py_bind].
  by rewrite Hthr, HV, vir_denominator_empty.
Qed.
End empty_manifold.

(** C3, as the code has it.  In threshold mode a zero denominator does not
    make the call fail as long as the manifold has an orbital: the division
    is numpy's, every fraction is [nan] or [inf], and the call returns a
    result whose achieved fraction is [nan] or [inf].  The call fails with
    [ZeroDivisionError] when the manifold under a threshold has no orbital at
    all, where both the numerator and the denominator are still the int
    [0]. *)
Theorem C3_zero_denominator (noocs_occ noocs_vir : vector) (opts : options) :
  num_act_occ opts = None →
  num_act_vir opts = None →
  ((is_Some (threshold_occ opts) →
    noocs_occupied noocs_occ noocs_vir ≠ []) →
   (is_Some (threshold_vir opts) →
    noocs_virtual noocs_occ noocs_vir ≠ []) →
   ∃ r,
     find_active_space noocs_occ noocs_vir opts = inr r ∧
     (is_Some (threshold_occ opts) →
      value (occ_denominator r) = 0%Qc →
      ∃ q, sigma_o r = Some q ∧ q ∈ [NaN; PInf; NInf]) ∧
     (is_Some (threshold_vir opts) →
      value (vir_denominator r) = 0%Qc →
      ∃ q, sigma_v r = Some q ∧ q ∈ [NaN; PInf; NInf])) ∧
  (is_Some (threshold_occ opts) →
   noocs_occupied noocs_occ noocs_vir = [] →
   find_active_space noocs_occ noocs_vir opts = inl ZeroDivisionError) ∧
  (is_Some (threshold_vir opts) →
   noocs_virtual noocs_occ noocs_vir = [] →
   find_active_space noocs_occ noocs_vir opts = inl ZeroDivisionError).
Proof.
  intros HkO HkV.
  split; [|split;
           [apply threshold_occ_empty_raises|apply threshold_vir_empty_raises]].
  intros HO HV. exists (selection noocs_occ noocs_vir opts).
  split; [|split].
  - apply find_active_space_spec.
    + rewrite HkO. intros [?|[? [=]]]. auto.
    + rewrite HkV. intros [?|[? [=]]]. auto.
    + rewrite HkO. by intros ? [=].
    + rewrite HkV. by intros ? [=].
  - intros [thr Hthr]. unfold selection. cbv zeta.
    cbn [sigma_o occ_denominator]. rewrite Hthr, HkO. simpl.
    intros ->. eexists. split; [reflexivity|apply np_divide_by_zero].
  - intros [thr Hthr]. unfold selection. cbv zeta.
    cbn [sigma_v vir_denominator]. rewrite Hthr, HkV. simpl.
    intros ->. eexists. split; [reflexivity|apply np_divide_by_zero].
Qed.

Lemma C3_witness :
  find_active_space [[]] full_vir (Options None (Some (qc 1 2)) None None None)
    = inl ZeroDivisionError.
Proof.
  destruct (C3_zero_denominator [[]] full_vir
              (Options None (Some (qc 1 2)) None None None))
    as (_ & Hempty & _); [reflexivity..|].
  apply Hempty; [by eexists|reflexivity].
Defined.

(** The claim C3 fails: one occupied orbital of occupation [1] gives the
    occupied denominator [0], and the call with [threshold_occ = 1/2] returns
    a result, with the orbital selected and the fraction [nan]. *)
Lemma C3_counterexample :
  value (t_occ_denominator (gather full_occ full_vir)) = 0%Qc ∧
  ∃ r, find_active_space full_occ full_vir
         (Options None (Some (qc 1 2)) None None None) = inr r ∧
       sigma_o r = Some NaN ∧ nact_occ r = Some 1.
Proof.
  split; [by apply Qc_is_canon|].
  eexists. split; [vm_compute; reflexivity|]. by split.
Qed.





(** ** Reordering the orbitals of an irrep *)

(** The loops read the tag and the occupation of an entry, never its index
    in the irrep. *)
Section index_free.
Context (contribution : Qc → number).




End index_free.









(** * Further properties of [find_active_space] *)

(** ** When the call returns *)

Section returns.
Context (contribution : Qc → number).

Lemma threshold_loop_error den thr l num active n e :
  threshold_loop contribution den thr l num active n = inl e →
  e = IndexError ∨ ∃ a b, py_truediv a b = inl e.
Proof.
  revert num active n.
  induction l as [|[[irrep occus] i] rest IH]; intros num active n; [done|].
  simpl. destruct (py_truediv _ den) as [e'|fraction] eqn:Hdiv.
  - intros [= <-]. right. eauto.
  - simpl. destruct (py_gt fraction thr); [done|].
    destruct (increment active irrep) as [e'|active'] eqn:Hinc.
    + intros [= <-]. left. by eapply increment_error.
    + simpl. apply IH.
Qed.

Lemma fixed_loop_error l range num active e :
  fixed_loop contribution l range num active = inl e → e = IndexError.
Proof.
  revert num active.
  induction range as [|k range IH]; intros num active; [done|].
  simpl. destruct (l !! k) as [[[irrep occus] i]|]; [|by intros [= <-]].
  destruct (increment active irrep) as [e'|active'] eqn:Hinc.
  - intros [= <-]. by eapply increment_error.
  - simpl. apply IH.
Qed.

(** A threshold on a sequence without orbitals raises, the numerator and the
    denominator being the ints they started as. *)
Lemma threshold_branch_inr_nonempty thr l active out :
  threshold_branch contribution (PyInt 0) (Some thr) l (PyInt 0) active
    = inr out →
  l ≠ [].
Proof. by intros H ->. Qed.

(** A branch that finds no orbital leaves the numerator alone. *)
Lemma threshold_branch_nil den thr num active num' active' sigma n :
  threshold_branch contribution den thr [] num active
    = inr (num', active', sigma, n) →
  num' = num.
Proof.
  destruct thr as [thr|]; simpl.
  - destruct (py_truediv num den); [done|]. by intros [= <- _ _ _].
  - by intros [= <- _ _ _].
Qed.

Lemma fixed_branch_inr_le den k l num active sigma out :
  fixed_branch contribution den (Some k) l num active sigma = inr out →
  k ≤ length l.
Proof.
  intros H. apply Nat.nlt_ge. intros Hlt.
  by rewrite fixed_branch_out_of_range in H.
Qed.

Lemma fixed_branch_inr_nonempty k l active sigma out :
  fixed_branch contribution (PyInt 0) (Some k) l (PyInt 0) active sigma
    = inr out →
  l ≠ [].
Proof.
  intros H ->. apply fixed_branch_inr_le in H as Hk.
  assert (k = 0) as -> by (simpl in Hk; lia). done.
Qed.

(** With a [float64] denominator the fixed-count branch can only fail by
    reading past the end of the sequence. *)
Lemma fixed_branch_error den k l num active sigma e :
  is_float den = true →
  fixed_branch contribution den k l num active sigma = inl e →
  e = IndexError.
Proof.
  intros Hden. unfold fixed_branch. destruct k as [k|]; [|done].
  destruct (fixed_loop contribution l (seq 0 k) num active)
    as [e'|[num' active']] eqn:Hloop.
  - cbn [mbind py_bind]. intros [= <-]. by eapply fixed_loop_error.
  - cbn [mbind py_bind]. by rewrite py_truediv_is_float_r by done.
Qed.
End returns.

Section outcome.
Context (noocs_occ noocs_vir : vector) (opts : options).

(** What a returned result tells about the input. *)
Lemma find_active_space_inr_inv r :
  find_active_space noocs_occ noocs_vir opts = inr r →
  (is_Some (threshold_occ opts) ∨ is_Some (num_act_occ opts) →
   noocs_occupied noocs_occ noocs_vir ≠ []) ∧
  (is_Some (threshold_vir opts) ∨ is_Some (num_act_vir opts) →
   noocs_virtual noocs_occ noocs_vir ≠ []) ∧
  (∀ k, num_act_occ opts = Some k →
        k ≤ length (noocs_occupied noocs_occ noocs_vir)) ∧
  (∀ k, num_act_vir opts = Some k →
        k ≤ length (noocs_virtual noocs_occ noocs_vir)).
Proof.
  unfold find_active_space. cbv zeta.
  fold (noocs_occupied noocs_occ noocs_vir).
  fold (noocs_virtual noocs_occ noocs_vir).
  intros H.
  apply py_bind_inr in H as ([[[num1 active1] s1] n1] & H1 & H).
  apply py_bind_inr in H as ([[[num2 active2] s2] n2] & H2 & H).
  apply py_bind_inr in H as ([[num3 active3] s3] & H3 & H).
  apply py_bind_inr in H as ([[num4 active4] s4] & H4 & _).
  split; [|split; [|split]].
  - intros Hcrit HO. rewrite HO, occ_denominator_empty in H1, H3 by done.
    destruct (threshold_occ opts) as [thr|] eqn:Hthr.
    { by apply threshold_branch_inr_nonempty in H1. }
    apply threshold_branch_nil in H1 as ->.
    destruct Hcrit as [[? [=]]|[k Hk]]. rewrite Hk in H3.
    by apply fixed_branch_inr_nonempty in H3.
  - intros Hcrit HV. rewrite HV, vir_denominator_empty in H2, H4 by done.
    destruct (threshold_vir opts) as [thr|] eqn:Hthr.
    { by apply threshold_branch_inr_nonempty in H2. }
    apply threshold_branch_nil in H2 as ->.
    destruct Hcrit as [[? [=]]|[k Hk]]. rewrite Hk in H4.
    by apply fixed_branch_inr_nonempty in H4.
  - intros k Hk. rewrite Hk in H3. by apply fixed_branch_inr_le in H3.
  - intros k Hk. rewrite Hk in H4. by apply fixed_branch_inr_le in H4.
Qed.

(** A returned result is the closed form. *)
Lemma find_active_space_inr_selection r :
  find_active_space noocs_occ noocs_vir opts = inr r →
  r = selection noocs_occ noocs_vir opts.
Proof.
  intros H. destruct (find_active_space_inr_inv r H) as (HO & HV & HkO & HkV).
  rewrite find_active_space_spec in H by done. by injection H.
Qed.

(** With an orbital in each manifold no division raises: what is left is
    the out-of-range error. *)
Lemma find_active_space_inl_nonempty e :
  noocs_occupied noocs_occ noocs_vir ≠ [] →
  noocs_virtual noocs_occ noocs_vir ≠ [] →
  find_active_space noocs_occ noocs_vir opts = inl e →
  e = IndexError.
Proof.
  intros HO HV. unfold find_active_space. cbv zeta.
  fold (noocs_occupied noocs_occ noocs_vir).
  fold (noocs_virtual noocs_occ noocs_vir).
  set (O := noocs_occupied noocs_occ noocs_vir) in *.
  set (V := noocs_virtual noocs_occ noocs_vir) in *.
  pose proof (occ_denominator_float _ _ HO) as Hdo.
  pose proof (vir_denominator_float _ _ HV) as Hdv.
  set (den_o := t_occ_denominator (gather noocs_occ noocs_vir)) in *.
  set (den_v := t_vir_denominator (gather noocs_occ noocs_vir)) in *.
  set (zeros := replicate (nirrep noocs_occ) 0).
  assert (length zeros = nirrep noocs_occ) as Hz by apply length_replicate.
  destruct (threshold_branch_spec _ _ occ_contribution_value den_o
              (threshold_occ opts) O (PyInt 0) zeros) as (num1 & -> & _);
    [by apply noocs_occupied_in_range|done|].
  cbn [mbind py_bind].
  match goal with
  | |- context [threshold_branch _ _ _ V _ ?a] => set (active1 := a)
  end.
  destruct (threshold_branch_spec _ _ vir_contribution_value den_v
              (threshold_vir opts) V (PyInt 0) active1) as (num2 & -> & _);
    [|done|].
  { apply noocs_virtual_in_range. unfold active1.
    by rewrite length_tally_irreps. }
  cbn [mbind py_bind].
  match goal with
  | |- context [fixed_branch _ _ _ O _ ?a ?sg] =>
      set (active2 := a); set (sigma1 := sg)
  end.
  destruct (fixed_branch occ_contribution den_o (num_act_occ opts) O num1
              active2 sigma1) as [e'|[[num3 active3] s3]] eqn:H3.
  { cbn [mbind py_bind]. intros [= <-].
    exact (fixed_branch_error _ _ _ _ _ _ _ _ Hdo H3). }
  cbn [mbind py_bind].
  match goal with
  | |- context [fixed_branch _ _ _ V _ ?a ?sg] => set (sigma2 := sg)
  end.
  destruct (fixed_branch vir_contribution den_v (num_act_vir opts) V num2
              active3 sigma2) as [e'|[[num4 active4] s4]] eqn:H4.
  { cbn [mbind py_bind]. intros [= <-].
    exact (fixed_branch_error _ _ _ _ _ _ _ _ Hdv H4). }
  done.
Qed.
End outcome.


(** X2.  In threshold mode (no fixed count) the only failure is the division
    error, and the call fails exactly when a manifold that has a threshold
    has no orbital: it never raises on a manifold with orbitals, whatever the
    occupations, the denominators and the thresholds are. *)
Theorem X2_threshold_mode_failure (noocs_occ noocs_vir : vector)
    (opts : options) :
  num_act_occ opts = None →
  num_act_vir opts = None →
  (∀ e, find_active_space noocs_occ noocs_vir opts = inl e ↔
        e = ZeroDivisionError ∧
        ((is_Some (threshold_occ opts) ∧
          noocs_occupied noocs_occ noocs_vir = []) ∨
         (is_Some (threshold_vir opts) ∧
          noocs_virtual noocs_occ noocs_vir = []))).
Proof.
  intros HkO HkV e. split.
  - intros He.
    destruct (decide (is_Some (threshold_occ opts) ∧
                      noocs_occupied noocs_occ noocs_vir = [])) as [[??]|HO].
    { rewrite threshold_occ_empty_raises in He by done.
      injection He as <-. auto. }
    destruct (decide (is_Some (threshold_vir opts) ∧
                      noocs_virtual noocs_occ noocs_vir = [])) as [[??]|HV].
    { rewrite threshold_vir_empty_raises in He by done.
      injection He as <-. auto. }
    rewrite find_active_space_spec in He; [done| | | |].
    + rewrite HkO. intros [?|[? [=]]] ?. by apply HO.
    + rewrite HkV. intros [?|[? [=]]] ?. by apply HV.
    + rewrite HkO. by intros ? [=].
    + rewrite HkV. by intros ? [=].
  - intros [-> [[??]|[??]]].
    + by apply threshold_occ_empty_raises.
    + by apply threshold_vir_empty_raises.
Qed.

Lemma X2_witness :
  find_active_space [[]; []] [[qc 1 10]; []]
    (Options None (Some (qc 98 100)) (Some (qc 98 100)) None None)
    = inl ZeroDivisionError.
Proof.
  apply (X2_threshold_mode_failure [[]; []] [[qc 1 10]; []]
           (Options None (Some (qc 98 100)) (Some (qc 98 100)) None None));
    [reflexivity..|].
  split; [reflexivity|]. left. split; [by eexists|reflexivity].
Defined.

(** X3.  On manifolds that have at least one orbital each, the call fails
    exactly when a fixed count is above the number of orbitals of its
    manifold, and the error is then [IndexError]; thresholds never make such
    a call fail. *)
Theorem X3_nonempty_failure (noocs_occ noocs_vir : vector) (opts : options) :
  noocs_occupied noocs_occ noocs_vir ≠ [] →
  noocs_virtual noocs_occ noocs_vir ≠ [] →
  (∀ e, find_active_space noocs_occ noocs_vir opts = inl e ↔
        e = IndexError ∧
        ((∃ k, num_act_occ opts = Some k ∧
               length (noocs_occupied noocs_occ noocs_vir) < k) ∨
         (∃ k, num_act_vir opts = Some k ∧
               length (noocs_virtual noocs_occ noocs_vir) < k))).
Proof.
  intros HO HV.
  assert (find_active_space noocs_occ noocs_vir opts
            = inr (selection noocs_occ noocs_vir opts) ↔
          ¬ ((∃ k, num_act_occ opts = Some k ∧
                   length (noocs_occupied noocs_occ noocs_vir) < k) ∨
             (∃ k, num_act_vir opts = Some k ∧
                   length (noocs_virtual noocs_occ noocs_vir) < k)))
    as Hok.
  { split.
    - intros H [(k & Hk & Hlt)|(k & Hk & Hlt)];
        apply find_active_space_inr_inv in H as (_ & _ & HkO & HkV).
      + specialize (HkO k Hk). lia.
      + specialize (HkV k Hk). lia.
    - intros Hno. apply find_active_space_spec; [done..| |].
      + intros k Hk. apply Nat.nlt_ge. intros Hlt. apply Hno. left. eauto.
      + intros k Hk. apply Nat.nlt_ge. intros Hlt. apply Hno. right. eauto. }
  intros e. split.
  - intros He. split; [by eapply find_active_space_inl_nonempty|].
    destruct (num_act_occ opts) as [k_o|] eqn:HkO.
    + destruct (decide (length (noocs_occupied noocs_occ noocs_vir) < k_o));
        [left; by eauto|].
      destruct (num_act_vir opts) as [k_v|] eqn:HkV.
      * destruct (decide (length (noocs_virtual noocs_occ noocs_vir) < k_v));
          [right; by eauto|].
        assert (inl e = inr (selection noocs_occ noocs_vir opts)) as Habs;
          [|done].
        rewrite <-He. apply Hok.
        intros [(k & [= <-] & ?)|(k & [= <-] & ?)]; lia.
      * assert (inl e = inr (selection noocs_occ noocs_vir opts)) as Habs;
          [|done].
        rewrite <-He. apply Hok.
        intros [(k & [= <-] & ?)|(k & [=] & ?)]; lia.
    + destruct (num_act_vir opts) as [k_v|] eqn:HkV.
      * destruct (decide (length (noocs_virtual noocs_occ noocs_vir) < k_v));
          [right; by eauto|].
        assert (inl e = inr (selection noocs_occ noocs_vir opts)) as Habs;
          [|done].
        rewrite <-He. apply Hok.
        intros [(k & [=] & ?)|(k & [= <-] & ?)]; lia.
      * assert (inl e = inr (selection noocs_occ noocs_vir opts)) as Habs;
          [|done].
        rewrite <-He. apply Hok.
        by intros [(k & [=] & ?)|(k & [=] & ?)].
  - intros [-> Hout].
    assert (∀ out, find_active_space noocs_occ noocs_vir opts = out →
                   out = inl IndexError) as Hall; [|by apply Hall].
    intros [e|r] Hcall.
    + f_equal. by eapply find_active_space_inl_nonempty.
    + apply find_active_space_inr_selection in Hcall as Hsel. subst r.
      by apply Hok in Hcall.
Qed.

Lemma X3_witness :
  find_active_space ex_occ ex_vir
    (Options None (Some (qc 1 2)) None (Some 5) None) = inl IndexError.
Proof.
  apply (X3_nonempty_failure ex_occ ex_vir
           (Options None (Some (qc 1 2)) None (Some 5) None)).
  - vm_compute. discriminate.
  - vm_compute. discriminate.
  - split; [reflexivity|]. left. exists 5. split; [reflexivity|].
    vm_compute. lia.
Defined.

(** X4.  Without any criterion in [options] (whatever [print_level] is) the
    call always returns, also on empty manifolds and zero denominators: no
    orbital is active in any irrep, the total is [0], and neither a fraction
    nor a manifold count is stored. *)
Theorem X4_no_criterion (noocs_occ noocs_vir : vector) (pl : option Z) :
  ∃ r,
    find_active_space noocs_occ noocs_vir (Options pl None None None None)
      = inr r ∧
    active r = replicate (nirrep noocs_occ) 0 ∧
    nact r = 0 ∧
    nact_occ r = None ∧ nact_vir r = None ∧
    sigma_o r = None ∧ sigma_v r = None.
Proof.
  eexists. split.
  - apply find_active_space_spec; simpl.
    + by intros [[? [=]]|[? [=]]].
    + by intros [[? [=]]|[? [=]]].
    + by intros ? [=].
    + by intros ? [=].
  - unfold selection. cbv zeta. simpl. rewrite !tally_irreps_nil.
    rewrite sum_list_replicate. repeat split. lia.
Qed.

(** ** The irreps' sizes *)

Lemma count_irrep_Permutation h l l' :
  l ≡ₚ l' → count_irrep h l = count_irrep h l'.
Proof. intros Hp. unfold count_irrep. by rewrite Hp. Qed.

Lemma count_irrep_take_mono h l n m :
  n ≤ m → count_irrep h (take n l) ≤ count_irrep h (take m l).
Proof.
  intros Hnm. replace m with (n + (m - n)) by lia.
  rewrite <-take_take_drop, count_irrep_app. lia.
Qed.

Lemma count_irrep_take_le h l n : count_irrep h (take n l) ≤ count_irrep h l.
Proof.
  rewrite <-(take_drop n l) at 2. rewrite count_irrep_app. lia.
Qed.

Lemma count_irrep_enumerate h sym a :
  count_irrep h (enumerate sym a) = if decide (sym = h) then length a else 0.
Proof.
  assert (Forall (λ o : orbital, irrep_of o = sym) (enumerate sym a)) as Hall.
  { pose proof (flatten_tags sym [a]) as H. simpl in H.
    rewrite app_nil_r in H. eapply Forall_impl; [exact H|].
    simpl. intros; lia. }
  rewrite <-(length_enumerate sym a).
  induction Hall as [|o l Ho _ IH]; [by case_decide|].
  rewrite count_irrep_cons, IH, Ho. simpl. by case_decide.
Qed.

(** Irrep [h] holds as many collected orbitals as its array has entries. *)
Lemma count_irrep_flatten h sym blocks :
  count_irrep h (flatten sym blocks) =
    if decide (sym ≤ h) then length (default [] (blocks !! (h - sym))) else 0.
Proof.
  revert sym. induction blocks as [|a rest IH]; intros sym; simpl.
  - rewrite count_irrep_nil. by case_decide.
  - rewrite count_irrep_app, count_irrep_enumerate, IH.
    destruct (decide (sym = h)) as [->|Hne].
    + rewrite decide_False by lia. rewrite decide_True by lia.
      rewrite Nat.sub_diag. simpl. lia.
    + destruct (decide (sym ≤ h)).
      * rewrite decide_True by lia.
        replace (h - sym) with (S (h - S sym)) by lia. done.
      * rewrite decide_False by lia. done.
Qed.

Lemma length_flatten sym blocks :
  length (flatten sym blocks) = length (concat blocks).
Proof.
  revert sym. induction blocks as [|a rest IH]; intros sym; simpl; [done|].
  by rewrite !length_app, length_enumerate, IH.
Qed.


Section sizes.
Context (noocs_occ noocs_vir : vector).
Hypothesis same_nirrep : nirrep noocs_occ = nirrep noocs_vir.

Lemma count_irrep_noocs_occupied h :
  count_irrep h (noocs_occupied noocs_occ noocs_vir) =
    length (default [] (noocs_occ !! h)).
Proof.
  rewrite (count_irrep_Permutation _ _ _
             (noocs_occupied_Permutation noocs_occ noocs_vir)).
  rewrite (proj1 (blocks_same_nirrep _ _ same_nirrep)).
  rewrite count_irrep_flatten, decide_True by lia. by rewrite Nat.sub_0_r.
Qed.

Lemma count_irrep_noocs_virtual h :
  count_irrep h (noocs_virtual noocs_occ noocs_vir) =
    length (default [] (noocs_vir !! h)).
Proof.
  rewrite (count_irrep_Permutation _ _ _
             (noocs_virtual_Permutation noocs_occ noocs_vir)).
  rewrite (proj2 (blocks_same_nirrep _ _ same_nirrep)).
  rewrite count_irrep_flatten, decide_True by lia. by rewrite Nat.sub_0_r.
Qed.

Lemma length_noocs_occupied :
  length (noocs_occupied noocs_occ noocs_vir) = length (concat noocs_occ).
Proof.
  rewrite noocs_occupied_Permutation, length_flatten.
  by rewrite (proj1 (blocks_same_nirrep _ _ same_nirrep)).
Qed.

Lemma length_noocs_virtual :
  length (noocs_virtual noocs_occ noocs_vir) = length (concat noocs_vir).
Proof.
  rewrite noocs_virtual_Permutation, length_flatten.
  by rewrite (proj2 (blocks_same_nirrep _ _ same_nirrep)).
Qed.
End sizes.



(** X6.  For vectors with the same irreps and a call that has at most one
    criterion per manifold, the number of active orbitals a result reports
    for an irrep is at most the number of orbitals of that irrep, occupied
    and virtual together, and the total is at most the number of all
    orbitals. *)
Theorem X6_active_bounded (noocs_occ noocs_vir : vector) (opts : options)
    (r : results) :
  nirrep noocs_occ = nirrep noocs_vir →
  threshold_occ opts = None ∨ num_act_occ opts = None →
  threshold_vir opts = None ∨ num_act_vir opts = None →
  find_active_space noocs_occ noocs_vir opts = inr r →
  (∀ h a b, noocs_occ !! h = Some a → noocs_vir !! h = Some b →
     ∃ c, active r !! h = Some c ∧ c ≤ length a + length b) ∧
  nact r ≤ length (concat noocs_occ) + length (concat noocs_vir).
Proof.
  intros Hn HcO HcV Hr.
  pose proof (find_active_space_inr_inv _ _ _ _ Hr) as (_ & _ & HkO & HkV).
  apply find_active_space_inr_selection in Hr as ->.
  split.
  - intros h a b Ha Hb. eexists. split.
    { apply selection_lookup. by apply lookup_lt_Some in Ha. }
    pose proof (count_irrep_noocs_occupied _ _ Hn h) as HO.
    pose proof (count_irrep_noocs_virtual _ _ Hn h) as HV.
    rewrite Ha in HO. rewrite Hb in HV. simpl in HO, HV.
    rewrite <-HO, <-HV. unfold selected.
    destruct HcO as [-> | ->], HcV as [-> | ->]; simpl;
      rewrite ?count_irrep_nil;
      repeat match goal with
             | |- context [count_irrep h (take ?n ?l)] =>
                 pose proof (count_irrep_take_le h l n);
                 generalize dependent (count_irrep h (take n l)); intros
             end; lia.
  - rewrite selection_nact.
    + rewrite <-(length_noocs_occupied _ _ Hn), <-(length_noocs_virtual _ _ Hn).
      pose proof (selected_le occ_value
                    (value (t_occ_denominator (gather noocs_occ noocs_vir)))
                    (threshold_occ opts)
                    (noocs_occupied noocs_occ noocs_vir) 0%Qc).
      pose proof (selected_le vir_value
                    (value (t_vir_denominator (gather noocs_occ noocs_vir)))
                    (threshold_vir opts)
                    (noocs_virtual noocs_occ noocs_vir) 0%Qc).
      assert (default 0 (num_act_occ opts)
                ≤ length (noocs_occupied noocs_occ noocs_vir)).
      { destruct (num_act_occ opts) as [k|] eqn:Hk; simpl; [by apply HkO|lia]. }
      assert (default 0 (num_act_vir opts)
                ≤ length (noocs_virtual noocs_occ noocs_vir)).
      { destruct (num_act_vir opts) as [k|] eqn:Hk; simpl; [by apply HkV|lia]. }
      unfold selected in *.
      destruct HcO as [HO | HO], HcV as [HV | HV]; rewrite HO, HV in *;
        simpl in *; lia.
    + destruct (num_act_occ opts) as [k|] eqn:Hk; simpl; [by apply HkO|lia].
    + destruct (num_act_vir opts) as [k|] eqn:Hk; simpl; [by apply HkV|lia].
Qed.

Lemma X6_witness :
  ∃ r c, find_active_space ex_occ ex_vir
           (Options None (Some (qc 98 100)) (Some (qc 1 2)) None None) = inr r ∧
         active r !! 1 = Some c ∧ c ≤ 4.
Proof.
  eexists. 
  match goal with
  | |- ∃ c, _ = inr ?r ∧ _ =>
      destruct (X6_active_bounded ex_occ ex_vir
                  (Options None (Some (qc 98 100)) (Some (qc 1 2)) None None) r)
        as [Hh _]
  end.
  - reflexivity.
  - by right.
  - by right.
  - vm_compute. reflexivity.
  - destruct (Hh 1 [qc 1 1; qc 17 20] [qc 1 20; qc 3 20] eq_refl eq_refl)
      as (c & Hc & Hle).
    exists c. split; [vm_compute; reflexivity|]. split; [exact Hc|exact Hle].
Defined.

(** ** Selecting everything *)




Section whole_manifold.
Context (noocs_occ noocs_vir : vector).


End whole_manifold.









(** X10.  In threshold mode on manifolds that have an orbital, raising the
    thresholds only adds orbitals: every irrep's active count and the total
    with the larger thresholds are at least those with the smaller ones. *)
Theorem X10_threshold_nested (noocs_occ noocs_vir : vector)
    (pl : option Z) (t1 t2 u1 u2 : Qc) :
  noocs_occupied noocs_occ noocs_vir ≠ [] →
  noocs_virtual noocs_occ noocs_vir ≠ [] →
  (t1 ≤ t2)%Qc →
  (u1 ≤ u2)%Qc →
  ∃ r1 r2,
    find_active_space noocs_occ noocs_vir
      (Options pl (Some t1) (Some u1) None None) = inr r1 ∧
    find_active_space noocs_occ noocs_vir
      (Options pl (Some t2) (Some u2) None None) = inr r2 ∧
    (∀ h, h < nirrep noocs_occ →
       ∃ c1 c2, active r1 !! h = Some c1 ∧ active r2 !! h = Some c2 ∧
                c1 ≤ c2) ∧
    nact r1 ≤ nact r2.
Proof.
  intros HO HV Ht Hu.
  pose proof (within_count_mono occ_value
                (value (t_occ_denominator (gather noocs_occ noocs_vir)))
                t1 t2 (noocs_occupied noocs_occ noocs_vir) 0%Qc Ht) as HnO.
  pose proof (within_count_mono vir_value
                (value (t_vir_denominator (gather noocs_occ noocs_vir)))
                u1 u2 (noocs_virtual noocs_occ noocs_vir) 0%Qc Hu) as HnV.
  eexists _, _. split; [|split; [|split]].
  - apply find_active_space_spec; simpl; auto; by intros ? [=].
  - apply find_active_space_spec; simpl; auto; by intros ? [=].
  - intros h Hh. eexists _, _.
    split; [by apply selection_lookup|].
    split; [by apply selection_lookup|].
    unfold selected. simpl. rewrite ?count_irrep_nil.
    pose proof (count_irrep_take_mono h (noocs_occupied noocs_occ noocs_vir)
                  _ _ HnO).
    pose proof (count_irrep_take_mono h (noocs_virtual noocs_occ noocs_vir)
                  _ _ HnV).
    lia.
  - rewrite !selection_nact by (simpl; lia). unfold selected. simpl. lia.
Qed.

Lemma X10_witness :
  ∃ r1 r2,
    find_active_space ex_occ ex_vir
      (Options None (Some (qc 1 2)) (Some (qc 1 2)) None None) = inr r1 ∧
    find_active_space ex_occ ex_vir
      (Options None (Some (qc 98 100)) (Some (qc 98 100)) None None) = inr r2 ∧
    nact r1 ≤ nact r2.
Proof.
  destruct (X10_threshold_nested ex_occ ex_vir None (qc 1 2) (qc 98 100)
              (qc 1 2) (qc 98 100)) as (r1 & r2 & H1 & H2 & _ & Hn).
  - vm_compute. discriminate.
  - vm_compute. discriminate.
  - vm_compute. discriminate.
  - vm_compute. discriminate.
  - exists r1, r2. auto.
Defined.

(** ** Ties in the sorted sequences *)

Lemma position_lt_trans a b c :
  position_lt a b → position_lt b c → position_lt a c.
Proof. unfold position_lt. lia. Qed.

Lemma imap_position_sorted sym k (a : list Qc) :
  StronglySorted position_lt (imap (λ i occus, (sym, occus, k + i)) a).
Proof.
  revert k. induction a as [|x a IH]; intros k; simpl; [constructor|].
  apply StronglySorted_cons. split.
  - apply Forall_forall. intros y Hy.
    apply list_elem_of_lookup in Hy as [i Hi].
    rewrite list_lookup_imap in Hi.
    destruct (a !! i) as [z|]; [|done]. injection Hi as <-.
    right. simpl. split; [done|lia].
  - erewrite imap_ext; [apply (IH (S k))|].
    intros i z _. simpl. f_equal. lia.
Qed.

Lemma enumerate_position_sorted sym a :
  StronglySorted position_lt (enumerate sym a).
Proof.
  unfold enumerate.
  erewrite imap_ext; [apply (imap_position_sorted sym 0)|]. done.
Qed.

(** The collected sequences list the orbitals irrep after irrep, each irrep
    by index. *)
Lemma flatten_position_sorted sym blocks :
  StronglySorted position_lt (flatten sym blocks).
Proof.
  revert sym. induction blocks as [|a rest IH]; intros sym; simpl.
  - constructor.
  - apply StronglySorted_app_2; [|apply enumerate_position_sorted|apply IH].
    intros x1 x2 H1 H2. left.
    pose proof (flatten_tags sym [a]) as Ha. simpl in Ha.
    rewrite app_nil_r, Forall_forall in Ha. specialize (Ha _ H1).
    pose proof (flatten_tags (S sym) rest) as Hr.
    rewrite Forall_forall in Hr. specialize (Hr _ H2). lia.
Qed.

Section ties.
Context (reverse : bool).

Lemma tie_lt_trans a b c :
  tie_lt reverse a b → tie_lt reverse b c → tie_lt reverse a c.
Proof.
  intros [Hab|[Hab Hp]] [Hbc|[Hbc Hq]]; unfold tie_lt.
  - left. by etrans.
  - left. by rewrite <-Hbc.
  - left. by rewrite Hab.
  - right. split; [congruence|by eapply position_lt_trans].
Qed.

(** An entry that stood before all of [l] is put before the entries of [l]
    with the same key. *)
Lemma insert_by_tie x l :
  StronglySorted (tie_lt reverse) l →
  Forall (position_lt x) l →
  StronglySorted (tie_lt reverse) (insert_by (key_before reverse) x l).
Proof.
  induction l as [|y l IH]; simpl.
  - intros _ _. by repeat constructor.
  - intros [Hy Hl]%StronglySorted_cons [Hxy Hx]%Forall_cons.
    destruct (key_before reverse y x) eqn:Hb.
    + apply key_before_spec in Hb.
      apply StronglySorted_cons. split; [|by apply IH].
      rewrite insert_by_Permutation. constructor; [by left|done].
    + assert (tie_lt reverse x y) as Hlt.
      { assert (key_le reverse (occus_of x) (occus_of y)) as Hle.
        { apply key_not_lt_le. rewrite <-key_before_spec. congruence. }
        apply key_le_lt_or_eq in Hle as [?|?]; [by left|by right]. }
      apply StronglySorted_cons. split.
      * constructor; [done|]. eapply Forall_impl; [exact Hy|].
        simpl. intros z Hz. by eapply tie_lt_trans.
      * by apply StronglySorted_cons.
Qed.

Lemma list_sort_tie l :
  StronglySorted position_lt l →
  StronglySorted (tie_lt reverse) (list_sort reverse l).
Proof.
  unfold list_sort, sort_by. induction l as [|x l IH]; simpl.
  - intros _. constructor.
  - intros [Hx Hl]%StronglySorted_cons. apply insert_by_tie; [by apply IH|].
    fold (sort_by (key_before reverse) l). by rewrite sort_by_Permutation.
Qed.
End ties.

(** X11.  Orbitals with equal occupations keep the order in which they were
    collected, in the ascending occupied sequence and in the descending
    virtual one alike: of two entries of a sorted sequence the earlier one
    has the key that sorts first, or the same occupation and the lower irrep,
    or the same occupation and irrep and the lower index in the irrep. *)
Theorem X11_ties_keep_collecting_order (noocs_occ noocs_vir : vector) :
  StronglySorted (tie_lt false) (noocs_occupied noocs_occ noocs_vir) ∧
  StronglySorted (tie_lt true) (noocs_virtual noocs_occ noocs_vir).
Proof.
  unfold noocs_occupied, noocs_virtual. rewrite gather_spec. simpl.
  split; apply list_sort_tie, flatten_position_sorted.
Qed.
